(** * Ledger transfer service (app.js): model and verified properties

    The development embeds the three routes of [app.js] (POST
    /setup-accounts, GET /accounts, POST /transfer) together with the
    part of the Mongoose [Account] model they call ([findById], [save],
    [find], [deleteMany], [insertMany], the [balance] validator
    [min: 0]).

    - Request fields are JavaScript values as [JSON.parse] produces them.
    - A JavaScript number is a binary64 value: NaN, an infinity, or a
      finite value, kept as its count of units of 2^-1074; [+] and [-]
      compute the exact result and round it to 53 significant bits,
      ties to even, as IEEE 754 prescribes.
    - A document remembers whether its balance was changed since it
      was loaded: [save] sends an update only then.
    - The database calls a handler awaits are the nodes of a small
      program tree; running a tree against a collection gives the
      sequential behaviour, and stepping several trees one call at a time
      gives every interleaving the event loop allows. *)

From stdpp Require Import gmap strings list fin_maps.
From Stdlib Require Import ZArith Lia.

Local Open Scope Z_scope.

(** ** JavaScript values *)

(** [Number] is IEEE 754 binary64.  Every finite binary64 value is a
    whole multiple of the smallest positive one, 2^-1074: [Fin u] is
    the value [u * 2^-1074].  The values of the type are those [u]
    whose magnitude is [m * 2^j] with [m < 2^53] and is below 2^2098
    (that is, 2^1024).  The two zeros are not told apart: the route
    compares, adds and prints numbers, and none of these separates
    them. *)
Inductive number : Type :=
| NaN
| PosInf
| NegInf
| Fin (u : Z).

#[global] Instance number_eq_dec : EqDecision number.
Proof. solve_decision. Defined.

(** The whole number [n], and the value [m * 2^e] for [e] from -1074
    up: 0.3, as JavaScript reads it, is [dyadic 5404319552844595 (-54)]. *)
Definition whole (n : Z) : number := Fin (n * 2 ^ 1074).

Definition dyadic (m e : Z) : number := Fin (m * 2 ^ (e + 1074)).

(** Rounding to nearest, ties to even, of a magnitude [n] to 53
    significant bits: the bits below the 53 leading ones are dropped,
    and the result goes one step up when they are more than half a
    step, or exactly half and the kept part is odd. *)
Definition round_magnitude (n : Z) : Z :=
  let k := Z.log2 n - 52 in
  if k <=? 0 then n
  else
    let q := n / 2 ^ k in
    let r := n mod 2 ^ k in
    let half := 2 ^ (k - 1) in
    (if (half <? r) || ((r =? half) && Z.odd q) then q + 1 else q) * 2 ^ k.

(** The binary64 value of an exact result of [u] units: rounded, and
    an infinity when the rounded magnitude reaches 2^1024. *)
Definition binary64 (u : Z) : number :=
  let m := round_magnitude (Z.abs u) in
  if 2 ^ 2098 <=? m then (if u <? 0 then NegInf else PosInf)
  else Fin (Z.sgn u * m).

(** The sum of two numbers as a mathematical value, before any
    rounding. *)
Definition num_plus (a b : number) : number :=
  match a, b with
  | NaN, _ | _, NaN => NaN
  | PosInf, NegInf | NegInf, PosInf => NaN
  | PosInf, _ | _, PosInf => PosInf
  | NegInf, _ | _, NegInf => NegInf
  | Fin x, Fin y => Fin (x + y)
  end.

(** [a + b]: the exact sum, rounded. *)
Definition num_add (a b : number) : number :=
  match num_plus a b with
  | Fin u => binary64 u
  | v => v
  end.

(** [-a] *)
Definition num_neg (a : number) : number :=
  match a with
  | NaN => NaN
  | PosInf => NegInf
  | NegInf => PosInf
  | Fin x => Fin (- x)
  end.

(** [a - b] *)
Definition num_sub (a b : number) : number := num_add a (num_neg b).

(** [a < b]; every comparison with NaN is false. *)
Definition num_ltb (a b : number) : bool :=
  match a, b with
  | NaN, _ | _, NaN => false
  | _, NegInf => false
  | PosInf, _ => false
  | NegInf, _ => true
  | Fin _, PosInf => true
  | Fin x, Fin y => x <? y
  end.

(** [a <= b] *)
Definition num_leb (a b : number) : bool :=
  match a, b with
  | NaN, _ | _, NaN => false
  | NegInf, _ => true
  | _, PosInf => true
  | _, NegInf => false
  | PosInf, _ => false
  | Fin x, Fin y => x <=? y
  end.

(** [a === b] on numbers: NaN differs from everything, itself included. *)
Definition num_eqb (a b : number) : bool :=
  match a, b with
  | NaN, _ | _, NaN => false
  | _, _ => bool_decide (a = b)
  end.

(** [a >= b] *)
Definition num_geb (a b : number) : bool := num_leb b a.

(** [Number.isFinite] *)
Definition is_finite (a : number) : bool :=
  match a with Fin _ => true | _ => false end.

(** A value of a parsed JSON body, or [undefined] for an absent field.
    Objects and arrays are heap references: [JObj r] is the object
    allocated at [r]. *)
Inductive jsval : Type :=
| JUndefined
| JNull
| JBool (b : bool)
| JNum (n : number)
| JStr (s : string)
| JObj (ref : nat).

#[global] Instance jsval_eq_dec : EqDecision jsval.
Proof. solve_decision. Defined.

(** Truthiness, as tested by [!v]: the falsy values are [undefined],
    [null], [false], [0], [NaN] and the empty string. *)
Definition truthy (v : jsval) : bool :=
  match v with
  | JUndefined | JNull => false
  | JBool b => b
  | JNum NaN => false
  | JNum (Fin z) => negb (z =? 0)
  | JNum _ => true
  | JStr s => negb (String.eqb s "")
  | JObj _ => true
  end.

(** [typeof v === 'number'] *)
Definition is_number (v : jsval) : bool :=
  match v with JNum _ => true | _ => false end.

(** [ToNumber] on the values the handler compares after its [typeof]
    test; other values never reach a comparison. *)
Definition to_number (v : jsval) : number :=
  match v with JNum n => n | _ => NaN end.

(** [a === b]: same type and same value; NaN differs from itself, and
    objects are compared by reference. *)
Definition strict_eq (a b : jsval) : bool :=
  match a, b with
  | JUndefined, JUndefined => true
  | JNull, JNull => true
  | JBool x, JBool y => Bool.eqb x y
  | JNum x, JNum y => num_eqb x y
  | JStr x, JStr y => String.eqb x y
  | JObj x, JObj y => Nat.eqb x y
  | _, _ => false
  end.

(** ** The Account model (app.js, section 3) *)

(** Mongo's [ObjectId] is a 12-byte value, read here as a number. *)
Abbreviation ObjectId := N (only parsing).

(** The paths of [accountSchema].  [new mongoose.Schema] is called with
    no options, so Mongoose adds its version key [__v] (0 on insert). *)
Record Account : Type := mkAccount {
  name : string;
  balance : number;
  __v : Z
}.

#[global] Instance Account_eq_dec : EqDecision Account.
Proof. solve_decision. Defined.

(** A hydrated document.  Besides the paths it keeps Mongoose's
    change tracking: whether [balance] was given a new value since the
    document was loaded. *)
Record Document : Type := hydrated {
  _id : ObjectId;
  fields :> Account;
  isModified : bool
}.

(** The document [findById] hands to the handler, or [insertMany]
    returns: nothing is modified yet. *)
Definition mkDocument (k : ObjectId) (a : Account) : Document :=
  {| _id := k; fields := a; isModified := false |}.

(** [doc.balance = v] on a record. *)
Definition set_balance (v : number) (a : Account) : Account :=
  {| name := name a; balance := v; __v := __v a |}.

(** [doc.balance = v] on a document: the path is marked modified when
    [v] is not the value it holds ([v === old] fails). *)
Definition doc_set_balance (v : number) (d : Document) : Document :=
  {| _id := _id d;
     fields := set_balance v d;
     isModified := isModified d || negb (num_eqb v (balance d)) |}.

(** The [accounts] collection, keyed by [_id]. *)
Abbreviation collection := (gmap N Account) (only parsing).

(** Errors a database call can reject with. *)
Inductive error : Type :=
| CastError            (* the id is not convertible to an ObjectId *)
| ValidationError      (* a schema validator refused the document *)
| DocumentNotFoundError (* save found no stored record for [_id] *)
| StoreError.          (* the driver or the server failed *)

Inductive outcome (X : Type) : Type :=
| Ok (x : X)
| Err (e : error).
Arguments Ok {X} x.
Arguments Err {X} e.

(** ** Responses *)

(** The JSON the handler sends. *)
Inductive json_body : Type :=
| Msg (message : string)
| Insufficient (message : string) (currentBalance amountToTransfer : jsval)
| Success (message : string) (senderNewBalance receiverNewBalance : jsval)
| Failure (message : string) (err : error).

(** [JSON.stringify] writes a number that is not finite as [null]. *)
Definition json_number (n : number) : jsval :=
  if is_finite n then JNum n else JNull.

Definition json_value (v : jsval) : jsval :=
  match v with JNum n => json_number n | _ => v end.

(** The body as [res.json] puts it on the wire. *)
Definition stringify (j : json_body) : json_body :=
  match j with
  | Insufficient m b a => Insufficient m (json_value b) (json_value a)
  | Success m a b => Success m (json_value a) (json_value b)
  | _ => j
  end.

Record response : Type := mkResponse {
  status : Z;
  json : json_body
}.

(** ** Programs over the database *)

(** A handler between two awaited calls is pure; the tree has one node
    per awaited call, whose continuation receives the resolved value or
    the rejection. *)
Inductive prog (A : Type) : Type :=
| Ret (a : A)
| Throw (e : error)
| FindById (id : jsval) (k : outcome (option Document) -> prog A)
| Save (d : Document) (k : outcome unit -> prog A).
Arguments Ret {A} a.
Arguments Throw {A} e.
Arguments FindById {A} id k.
Arguments Save {A} d k.

Fixpoint bind {A B} (p : prog A) (f : A -> prog B) : prog B :=
  match p with
  | Ret a => f a
  | Throw e => Throw e
  | FindById id k => FindById id (fun r => bind (k r) f)
  | Save d k => Save d (fun r => bind (k r) f)
  end.

(** [try { p } catch (error) { h error }] *)
Fixpoint try_catch {A} (p : prog A) (h : error -> prog A) : prog A :=
  match p with
  | Ret a => Ret a
  | Throw e => h e
  | FindById id k => FindById id (fun r => try_catch (k r) h)
  | Save d k => Save d (fun r => try_catch (k r) h)
  end.

(** [await call]: a rejection is thrown at the await. *)
Definition await {X} (r : outcome X) : prog X :=
  match r with Ok x => Ret x | Err e => Throw e end.

(** [await Account.findById(id)] *)
Definition findById (id : jsval) : prog (option Document) := FindById id await.

(** [await doc.save()] *)
Definition save (d : Document) : prog unit := Save d await.

Notation "x <- p ;; q" := (bind p (fun x => q))
  (at level 100, p at next level, right associativity).
Notation "p ;;; q" := (bind p (fun _ => q))
  (at level 100, right associativity).

(** ** POST /transfer (app.js, lines 81-139) *)

Record body : Type := mkBody {
  fromAccountId : jsval;
  toAccountId : jsval;
  amount : jsval
}.

(** [res.status(code).json(j)] *)
Definition res (code : Z) (j : json_body) : response :=
  {| status := code; json := stringify j |}.

(** The status code of a request that was answered. *)
Definition status_of (o : outcome response) : option Z :=
  match o with Ok r => Some (status r) | Err _ => None end.

(** The error taxonomy the service's callers see, read off the status
    code and the shape of the JSON (400 is shared by rejected requests
    and by insufficient funds, which alone echoes the balance). *)
Inductive kind : Type :=
| Completed
| InvalidArgument
| InsufficientFunds
| NotFound
| InternalFailure.

#[global] Instance kind_eq_dec : EqDecision kind.
Proof. solve_decision. Defined.

Definition kind_of (r : response) : option kind :=
  match status r, json r with
  | 200, Success _ _ _ => Some Completed
  | 400, Msg _ => Some InvalidArgument
  | 400, Insufficient _ _ _ => Some InsufficientFunds
  | 404, Msg _ => Some NotFound
  | 500, Failure _ _ => Some InternalFailure
  | _, _ => None
  end.

(** ** The driver on hexadecimal ids

    The ids the service hands out are strings of 24 hexadecimal digits.
    On such strings every version of the driver agrees: [isValid]
    accepts them and the conversion reads the digits in either case.
    Other inputs some versions accept (12-character strings, numbers)
    are left out of this instance; the theorems below do not depend on
    it. *)

Definition hex_digit (c : Ascii.ascii) : option N :=
  let n := Ascii.N_of_ascii c in
  if (48 <=? n)%N && (n <=? 57)%N then Some (n - 48)%N
  else if (97 <=? n)%N && (n <=? 102)%N then Some (n - 87)%N
  else if (65 <=? n)%N && (n <=? 70)%N then Some (n - 55)%N
  else None.

Fixpoint hex_value (s : string) (acc : N) : option N :=
  match s with
  | EmptyString => Some acc
  | String c s' =>
    match hex_digit c with
    | Some d => hex_value s' (16 * acc + d)%N
    | None => None
    end
  end.

Definition hexCast (v : jsval) : option ObjectId :=
  match v with
  | JStr s => if Nat.eqb (String.length s) 24 then hex_value s 0%N else None
  | _ => None
  end.

Definition hexIsValid (v : jsval) : bool :=
  match hexCast v with Some _ => true | None => false end.

(** ** Sample data: the collection POST /setup-accounts creates *)

Definition idA : string := "64b7f0c2a1d3e4f5a6b7c8d9".
Definition idB : string := "64b7f0c2a1d3e4f5a6b7c8da".

(** A well-formed id that no account of the sample has. *)
Definition idC : string := "64b7f0c2a1d3e4f5a6b7c8db".
Definition idD : string := "64b7f0c2a1d3e4f5a6b7c8dc".

Definition keyA : ObjectId := default 0%N (hexCast (JStr idA)).
Definition keyB : ObjectId := default 0%N (hexCast (JStr idB)).

Definition userA : Account := {| name := "UserA"; balance := whole 1000; __v := 0 |}.
Definition userB : Account := {| name := "UserB"; balance := whole 500; __v := 0 |}.

Definition seeded : collection := <[keyB := userB]> (<[keyA := userA]> ∅).

Definition amount_333_33 : number := dyadic 5864003374185185 (-44).

Definition request (from to : string) (amt : number) : body :=
  {| fromAccountId := JStr from; toAccountId := JStr to; amount := JNum amt |}.

(** ** Observations on a collection *)

Definition balance_of (k : ObjectId) (s : collection) : option number :=
  balance <$> s !! k.

(** The sum of all balances, as a mathematical value. *)
Definition total (s : collection) : number :=
  map_fold (fun _ a acc => num_plus (balance a) acc) (Fin 0) s.

(** What a transfer of [x] does to the sender's record and to the
    receiver's: [balance -= x] and [balance += x], as binary64
    computes them. *)
Definition debit (k : ObjectId) (x : number) (s : collection) : collection :=
  alter (fun a => set_balance (num_sub (balance a) x) a) k s.

Definition credit (k : ObjectId) (x : number) (s : collection) : collection :=
  alter (fun a => set_balance (num_add (balance a) x) a) k s.

Section Handler.

(** [mongoose.Types.ObjectId.isValid] and the conversion [findById]
    applies to its argument belong to the driver; the route is modelled
    over any pair of them. *)
Variable isValid : jsval -> bool.
Variable castObjectId : jsval -> option ObjectId.

(** Step 1 of the route, lines 86-97: the first violated check answers,
    [None] when all four pass. *)
Definition validate (req : body) : option response :=
  if negb (truthy (fromAccountId req)) || negb (truthy (toAccountId req))
     || negb (truthy (amount req))
  then Some (res 400 (Msg "Missing fields: fromAccountId, toAccountId, and amount are required."))
  else if negb (is_number (amount req)) || num_leb (to_number (amount req)) (Fin 0)
  then Some (res 400 (Msg "Amount must be a positive number."))
  else if strict_eq (fromAccountId req) (toAccountId req)
  then Some (res 400 (Msg "Cannot transfer money to the same account."))
  else if negb (isValid (fromAccountId req)) || negb (isValid (toAccountId req))
  then Some (res 400 (Msg "Invalid account ID format."))
  else None.

(** Steps 2-4, lines 100-133. *)
Definition transfer_body (req : body) : prog response :=
  match validate req with
  | Some r => Ret r
  | None =>
    sender <- findById (fromAccountId req) ;;
    receiver <- findById (toAccountId req) ;;
    match sender, receiver with
    | None, _ => Ret (res 404 (Msg "Sender account not found."))
    | Some _, None => Ret (res 404 (Msg "Receiver account not found."))
    | Some sender, Some receiver =>
      if num_ltb (balance sender) (to_number (amount req))
      then Ret (res 400 (Insufficient "Insufficient funds."
                           (JNum (balance sender)) (amount req)))
      else
        let sender := doc_set_balance (num_sub (balance sender) (to_number (amount req))) sender in
        let receiver := doc_set_balance (num_add (balance receiver) (to_number (amount req))) receiver in
        save sender ;;;
        save receiver ;;;
        Ret (res 200 (Success "Transfer successful!"
                        (JNum (balance sender)) (JNum (balance receiver))))
    end
  end.

(** The whole route: the body inside its [try], and the [catch]. *)
Definition transfer (req : body) : prog response :=
  try_catch (transfer_body req)
    (fun e => Ret (res 500 (Failure "Error during transfer" e))).


(** ** The database (Mongoose over MongoDB) *)

(** [Account.findById(id)]: the id is converted to an [ObjectId] (a
    failed conversion rejects), and the stored record, if any, is
    hydrated into a fresh document. *)
Definition db_findById (id : jsval) (s : collection) : outcome (option Document) :=
  match castObjectId id with
  | None => Err CastError
  | Some k => Ok (mkDocument k <$> s !! k)
  end.

(** The schema's validator on [balance]: [min: 0], that is [v >= 0]. *)
Definition min_0 (v : number) : bool := num_geb v (Fin 0).

(** [doc.save()] on a document that was loaded from the collection:
    the validators run first.  Then, when [balance] is marked
    modified, it is set on the stored record with the document's
    [_id], whatever that record holds by now; when it is not, no
    update is sent and Mongoose only asks whether the record is still
    there.  [__v] is not part of the update, and no record under the
    [_id] rejects the save either way.  Stored records are taken to
    have the non-empty names the schema requires, so of the validators
    only [min: 0] can refuse a loaded document. *)
Definition db_save (d : Document) (s : collection) : outcome unit * collection :=
  if negb (min_0 (balance d)) then (Err ValidationError, s)
  else match s !! _id d with
       | None => (Err DocumentNotFoundError, s)
       | Some _ =>
         (Ok tt, if isModified d then alter (set_balance (balance d)) (_id d) s else s)
       end.

(** One awaited call, performed atomically by the database.  [fault]
    is the environment's choice to fail the call (connection lost,
    server down): the call then rejects and writes nothing. *)
Definition perform {A} (fault : bool) (p : prog A) (s : collection) : prog A * collection :=
  match p with
  | FindById id k =>
    (k (if fault then Err StoreError else db_findById id s), s)
  | Save d k =>
    if fault then (k (Err StoreError), s)
    else (k (db_save d s).1, (db_save d s).2)
  | _ => (p, s)
  end.

(** What a run asked of the database. *)
Inductive event : Type :=
| EFind (id : jsval)
| ESave (d : Document).

Definition next_fault (faults : list bool) : bool := default false (head faults).

(** A handler run alone, from its first line to its response: the
    result, the collection it leaves, and the calls it made.  [faults]
    decides call by call, in order, which ones the environment fails
    (none once the list is exhausted). *)
Fixpoint run {A} (p : prog A) (faults : list bool) (s : collection)
  : outcome A * collection * list event :=
  match p with
  | Ret a => (Ok a, s, [])
  | Throw e => (Err e, s, [])
  | FindById id k =>
    let r := if next_fault faults then Err StoreError else db_findById id s in
    let '(o, s', tr) := run (k r) (tail faults) s in
    (o, s', EFind id :: tr)
  | Save d k =>
    let r := if next_fault faults then (Err StoreError, s) else db_save d s in
    let '(o, s', tr) := run (k r.1) (tail faults) r.2 in
    (o, s', ESave d :: tr)
  end.

(** Requests served one after the other, each with its own faults. *)
Fixpoint serve (reqs : list (body * list bool)) (s : collection)
  : list (outcome response) * collection :=
  match reqs with
  | [] => ([], s)
  | (req, faults) :: rest =>
    let '(o, s', _) := run (transfer req) faults s in
    let '(os, s'') := serve rest s' in
    (o :: os, s'')
  end.

(** ** Concurrent requests

    Node runs one handler at a time and switches only at an [await].
    A state is the collection and the handlers in flight; a step lets
    handler [i] perform the call it is waiting on and run on to its
    next await. *)
Definition state : Type := collection * list (prog response).

Definition step (i : nat) (fault : bool) (st : state) : state :=
  match st.2 !! i with
  | Some p => ((perform fault p st.1).2, <[i := (perform fault p st.1).1]> st.2)
  | None => st
  end.

Definition exec (schedule : list (nat * bool)) (st : state) : state :=
  foldl (fun st c => step c.1 c.2 st) st schedule.

(** The schedule that gives handler 0 one step per call of its run. *)
Fixpoint alone {A} (p : prog A) (faults : list bool) (s : collection) : list (nat * bool) :=
  match p with
  | Ret _ | Throw _ => []
  | FindById id k =>
    (0%nat, next_fault faults)
      :: alone (k (if next_fault faults then Err StoreError else db_findById id s))
           (tail faults) s
  | Save d k =>
    (0%nat, next_fault faults)
      :: alone (k (if next_fault faults then Err StoreError else (db_save d s).1))
           (tail faults) (if next_fault faults then s else (db_save d s).2)
  end.

(** The response of a handler that has finished. *)
Definition responded {A} (p : prog A) : option A :=
  match p with Ret a => Some a | _ => None end.

(** Whether the environment fails the [i]-th call of a run. *)
Definition fault_at (i : nat) (faults : list bool) : bool :=
  default false (faults !! i).

(** A request names two different accounts. *)
Definition distinct_accounts (req : body) : Prop :=
  castObjectId (fromAccountId req) ≠ castObjectId (toAccountId req).

(** [v] is a number above zero, the amounts step 1 lets through. *)
Definition positive_number (v : jsval) : bool :=
  is_number v && num_ltb (Fin 0) (to_number v).

(** The balance of account [k] is there and is not below zero. *)
Definition non_negative (k : ObjectId) (s : collection) : Prop :=
  ∃ v, balance_of k s = Some v ∧ num_leb (Fin 0) v = true.

(** [n] requests of the same amount between [a] and [b], the first
    from [a] to [b], each next one in the opposite direction. *)
Fixpoint alternating (n : nat) (a b amt : jsval) : list body :=
  match n with
  | O => []
  | S n => mkBody a b amt :: alternating n b a amt
  end.

(** The documents the handler saves, from the records it read. *)
Definition debited (kf : ObjectId) (sa : Account) (x : number) : Document :=
  doc_set_balance (num_sub (balance sa) x) (mkDocument kf sa).

Definition credited (kt : ObjectId) (ra : Account) (x : number) : Document :=
  doc_set_balance (num_add (balance ra) x) (mkDocument kt ra).

(** The ways a run of the route between two different accounts can
    end: what it answers, the collection it leaves and the calls it
    made.  Either nothing was written; or the sender's save went
    through and the receiver's did not; or both went through. *)
Inductive transfer_effect (req : body) (s : collection)
  : response → collection → list event → Prop :=
| effect_none r tr :
    status r ≠ 200 →
    (∀ d, ESave d ∈ tr → status r = 500) →
    transfer_effect req s r s tr
| effect_debit kf kt sa ra e :
    let x := to_number (amount req) in
    validate req = None →
    castObjectId (fromAccountId req) = Some kf →
    castObjectId (toAccountId req) = Some kt →
    s !! kf = Some sa → s !! kt = Some ra →
    num_ltb (balance sa) x = false →
    min_0 (num_sub (balance sa) x) = true →
    transfer_effect req s (res 500 (Failure "Error during transfer" e))
      (alter (set_balance (num_sub (balance sa) x)) kf s)
      [EFind (fromAccountId req); EFind (toAccountId req);
       ESave (debited kf sa x); ESave (credited kt ra x)]
| effect_both kf kt sa ra :
    let x := to_number (amount req) in
    validate req = None →
    castObjectId (fromAccountId req) = Some kf →
    castObjectId (toAccountId req) = Some kt →
    s !! kf = Some sa → s !! kt = Some ra →
    num_ltb (balance sa) x = false →
    min_0 (num_sub (balance sa) x) = true →
    min_0 (num_add (balance ra) x) = true →
    transfer_effect req s
      (res 200 (Success "Transfer successful!"
                  (JNum (num_sub (balance sa) x)) (JNum (num_add (balance ra) x))))
      (alter (set_balance (num_add (balance ra) x)) kt
         (alter (set_balance (num_sub (balance sa) x)) kf s))
      [EFind (fromAccountId req); EFind (toAccountId req);
       ESave (debited kf sa x); ESave (credited kt ra x)].

(** ** The exits of the route

    The [i]-th call of a run, as the environment lets it happen. *)
Definition read (i : nat) (id : jsval) (faults : list bool) (s : collection)
  : outcome (option Document) :=
  if fault_at i faults then Err StoreError else db_findById id s.

Definition write (i : nat) (d : Document) (faults : list bool) (s : collection)
  : outcome unit * collection :=
  if fault_at i faults then (Err StoreError, s) else db_save d s.

Definition failed (e : error) : response :=
  res 500 (Failure "Error during transfer" e).

(** One constructor per [return] and per way into the [catch] of
    lines 81-139, with the conditions under which the route takes it,
    the answer, the collection left and the calls made. *)
Inductive exit (req : body) (faults : list bool) (s : collection)
  : response → collection → list event → Prop :=
| exit_invalid r :
    validate req = Some r →
    exit req faults s r s []
| exit_first_read e :
    validate req = None →
    read 0 (fromAccountId req) faults s = Err e →
    exit req faults s (failed e) s [EFind (fromAccountId req)]
| exit_second_read sender e :
    validate req = None →
    read 0 (fromAccountId req) faults s = Ok sender →
    read 1 (toAccountId req) faults s = Err e →
    exit req faults s (failed e) s
      [EFind (fromAccountId req); EFind (toAccountId req)]
| exit_no_sender receiver :
    validate req = None →
    read 0 (fromAccountId req) faults s = Ok None →
    read 1 (toAccountId req) faults s = Ok receiver →
    exit req faults s (res 404 (Msg "Sender account not found.")) s
      [EFind (fromAccountId req); EFind (toAccountId req)]
| exit_no_receiver sender :
    validate req = None →
    read 0 (fromAccountId req) faults s = Ok (Some sender) →
    read 1 (toAccountId req) faults s = Ok None →
    exit req faults s (res 404 (Msg "Receiver account not found.")) s
      [EFind (fromAccountId req); EFind (toAccountId req)]
| exit_insufficient (sender receiver : Document) :
    validate req = None →
    read 0 (fromAccountId req) faults s = Ok (Some sender) →
    read 1 (toAccountId req) faults s = Ok (Some receiver) →
    num_ltb (balance sender) (to_number (amount req)) = true →
    exit req faults s
      (res 400 (Insufficient "Insufficient funds." (JNum (balance sender)) (amount req))) s
      [EFind (fromAccountId req); EFind (toAccountId req)]
| exit_first_save (sender receiver : Document) e s1 :
    let x := to_number (amount req) in
    let dS := doc_set_balance (num_sub (balance sender) x) sender in
    validate req = None →
    read 0 (fromAccountId req) faults s = Ok (Some sender) →
    read 1 (toAccountId req) faults s = Ok (Some receiver) →
    num_ltb (balance sender) x = false →
    write 2 dS faults s = (Err e, s1) →
    exit req faults s (failed e) s1
      [EFind (fromAccountId req); EFind (toAccountId req); ESave dS]
| exit_second_save (sender receiver : Document) e s1 s2 :
    let x := to_number (amount req) in
    let dS := doc_set_balance (num_sub (balance sender) x) sender in
    let dR := doc_set_balance (num_add (balance receiver) x) receiver in
    validate req = None →
    read 0 (fromAccountId req) faults s = Ok (Some sender) →
    read 1 (toAccountId req) faults s = Ok (Some receiver) →
    num_ltb (balance sender) x = false →
    write 2 dS faults s = (Ok (), s1) →
    write 3 dR faults s1 = (Err e, s2) →
    exit req faults s (failed e) s2
      [EFind (fromAccountId req); EFind (toAccountId req); ESave dS; ESave dR]
| exit_success (sender receiver : Document) s1 s2 :
    let x := to_number (amount req) in
    let dS := doc_set_balance (num_sub (balance sender) x) sender in
    let dR := doc_set_balance (num_add (balance receiver) x) receiver in
    validate req = None →
    read 0 (fromAccountId req) faults s = Ok (Some sender) →
    read 1 (toAccountId req) faults s = Ok (Some receiver) →
    num_ltb (balance sender) x = false →
    write 2 dS faults s = (Ok (), s1) →
    write 3 dR faults s1 = (Ok (), s2) →
    exit req faults s
      (res 200 (Success "Transfer successful!" (JNum (balance dS)) (JNum (balance dR)))) s2
      [EFind (fromAccountId req); EFind (toAccountId req); ESave dS; ESave dR].

(** The environment fails no call of the run. *)
Definition healthy (faults : list bool) : Prop := ∀ i, fault_at i faults = false.


(** Every balance of the collection is a whole number, not below
    zero. *)
Definition whole_balances (s : collection) : Prop :=
  ∀ k a, s !! k = Some a → ∃ n, balance a = whole n ∧ 0 ≤ n.

(** The amount of the request is a whole number. *)
Definition whole_amount (req : body) : Prop := ∃ n, amount req = JNum (whole n).

(** The request reads or writes the record under [k]. *)
Definition touches (req : body) (k : ObjectId) : Prop :=
  castObjectId (fromAccountId req) = Some k ∨ castObjectId (toAccountId req) = Some k.

(** Accepted saves, as the ids and balances they set, in order. *)
Definition apply_writes (ws : list (ObjectId * number)) (s : collection) : collection :=
  foldl (fun s w => alter (set_balance w.2) w.1 s) s ws.

(** The update a save of [d] sends: none when [balance] is not marked
    modified. *)
Definition update_of (d : Document) : list (ObjectId * number) :=
  if isModified d then [(_id d, balance d)] else [].

(** A handler, from where it stands, only reads and saves records
    whose ids are in [K], given that each read hands it the document of
    the id it asked for. *)
Inductive within (K : ObjectId → Prop) : prog response → Prop :=
| within_ret r : within K (Ret r)
| within_throw e : within K (Throw e)
| within_find id k :
    (∀ key, castObjectId id = Some key → K key) →
    (∀ r, (∀ d, r = Ok (Some d) → castObjectId id = Some (_id d)) → within K (k r)) →
    within K (FindById id k)
| within_save d k :
    K (_id d) →
    (∀ r, within K (k r)) →
    within K (Save d k).

(** Two handlers in flight, each within its own accounts. *)
Definition apart (K1 K2 : ObjectId → Prop) (st : state) : Prop :=
  ∃ p q, st.2 = [p; q] ∧ within K1 p ∧ within K2 q.

(** The handler answers after at most [n] more calls, whatever they
    return. *)
Fixpoint settles (p : prog response) (n : nat) : Prop :=
  match p with
  | Ret _ => True
  | Throw _ => False
  | FindById _ k => match n with O => False | S m => ∀ r, settles (k r) m end
  | Save _ k => match n with O => False | S m => ∀ r, settles (k r) m end
  end.

(** ** The other routes (app.js, lines 43-75) *)

(** The JSON these routes send. *)
Inductive reply_json : Type :=
| Created (message : string) (accounts : list Document)
| Listing (accounts : list Document)
| Problem (message : string) (err : error).

Record reply : Type := mkReply {
  code : Z;
  payload : reply_json
}.

(** [Account.deleteMany({})]: the empty filter matches every record. *)
Definition db_deleteMany (s : collection) : collection := ∅.

(** The validators of [accountSchema] on a new document: [name] is
    required (for a string: not empty), [balance] is required and at
    least 0. *)
Definition valid_account (a : Account) : bool :=
  negb (String.eqb (name a) "") && min_0 (balance a).

(** An ordered insert: the documents go in one by one and the first
    one whose [_id] is taken stops the insert with the server's
    duplicate-key error; those before it stay. *)
Fixpoint insert_ordered (docs : list Document) (s : collection)
  : outcome unit * collection :=
  match docs with
  | [] => (Ok (), s)
  | d :: rest =>
    match s !! _id d with
    | Some _ => (Err StoreError, s)
    | None => insert_ordered rest (<[_id d := fields d]> s)
    end
  end.

(** [Account.insertMany(docs)]: every document is validated first, and
    none is sent when one is refused; then the ordered insert.  The
    result is the list of documents created. *)
Definition db_insertMany (docs : list Document) (s : collection)
  : outcome (list Document) * collection :=
  if forallb (fun d : Document => valid_account d) docs
  then match insert_ordered docs s with
       | (Ok _, s') => (Ok docs, s')
       | (Err e, s') => (Err e, s')
       end
  else (Err ValidationError, s).

(** [Account.find()]: every record, hydrated.  The order in which
    MongoDB returns them is not modelled; the list is in key order. *)
Definition db_find (s : collection) : list Document :=
  (fun ka => mkDocument ka.1 ka.2) <$> map_to_list s.

(** A plain object of line 50 or 51 made into a document: Mongoose
    gives it the [_id] it generated and the version key 0. *)
Definition new_document (k : ObjectId) (nm : string) (bal : number) : Document :=
  mkDocument k (mkAccount nm bal 0).

(** POST /setup-accounts, lines 43-62.  [ida] and [idb] are the ids
    Mongoose generates for the two documents. *)
Definition setup_accounts (ida idb : ObjectId) (faults : list bool) (s : collection)
  : reply * collection :=
  if fault_at 0 faults
  then (mkReply 500 (Problem "Error setting up accounts" StoreError), s)
  else
    let s1 := db_deleteMany s in
    let accounts :=
      [new_document ida "UserA" (whole 1000); new_document idb "UserB" (whole 500)] in
    if fault_at 1 faults
    then (mkReply 500 (Problem "Error setting up accounts" StoreError), s1)
    else
      match db_insertMany accounts s1 with
      | (Ok createdAccounts, s2) =>
        (mkReply 201 (Created "Test accounts created successfully!" createdAccounts), s2)
      | (Err e, s2) => (mkReply 500 (Problem "Error setting up accounts" e), s2)
      end.

(** GET /accounts, lines 68-75.  The route makes one call, a read. *)
Definition get_accounts (faults : list bool) (s : collection) : reply :=
  if fault_at 0 faults
  then mkReply 500 (Problem "Error fetching accounts" StoreError)
  else mkReply 200 (Listing (db_find s)).

(** ** Arithmetic and comparison on numbers *)

Lemma num_plus_comm a b : num_plus a b = num_plus b a.
Proof. destruct a, b; simpl; try reflexivity; f_equal; lia. Qed.

Lemma num_plus_assoc a b c : num_plus a (num_plus b c) = num_plus (num_plus a b) c.
Proof. destruct a, b, c; simpl; try reflexivity; f_equal; lia. Qed.

Lemma num_plus_swap a b c : num_plus a (num_plus b c) = num_plus b (num_plus a c).
Proof. by rewrite !num_plus_assoc, (num_plus_comm a b). Qed.

Lemma strict_eq_refl v : truthy v = true → strict_eq v v = true.
Proof.
  destruct v as [| |b|n|str|r]; simpl; try done.
  - by destruct b.
  - destruct n; try done; intros _; by apply bool_decide_eq_true.
  - intros _. by apply String.eqb_refl.
  - intros _. by apply Nat.eqb_refl.
Qed.

(** *** Rounding *)

Lemma round_magnitude_nonneg n : 0 ≤ n → 0 ≤ round_magnitude n.
Proof.
  intros Hn. unfold round_magnitude.
  destruct (Z.log2 n - 52 <=? 0) eqn:Hk; [done|]. apply Z.leb_gt in Hk.
  assert (0 < 2 ^ (Z.log2 n - 52)) by (apply Z.pow_pos_nonneg; lia).
  assert (0 ≤ n / 2 ^ (Z.log2 n - 52)) by (apply Z.div_pos; lia).
  destruct (_ || _); nia.
Qed.

(** A magnitude of at most 53 significant bits is not rounded. *)
Lemma round_magnitude_exact m j :
  0 ≤ m < 2 ^ 53 → 0 ≤ j → round_magnitude (m * 2 ^ j) = m * 2 ^ j.
Proof.
  intros [Hm0 Hm] Hj. unfold round_magnitude.
  destruct (Z.log2 (m * 2 ^ j) - 52 <=? 0) eqn:Hk; [done|]. apply Z.leb_gt in Hk.
  assert (0 < m) as Hpos.
  { destruct (decide (m = 0)) as [->|]; [|lia]. by rewrite Z.mul_0_l in Hk. }
  rewrite Z.log2_mul_pow2 in * by lia.
  assert (Z.log2 m < 53) as Hl by (by apply Z.log2_lt_pow2).
  set (k := j + Z.log2 m - 52) in *.
  assert (m * 2 ^ j = m * 2 ^ (j - k) * 2 ^ k) as ->.
  { rewrite <- Z.mul_assoc, <- Z.pow_add_r by lia. do 2 f_equal. lia. }
  assert (0 < 2 ^ k) by (apply Z.pow_pos_nonneg; lia).
  assert (0 < 2 ^ (k - 1)) by (apply Z.pow_pos_nonneg; lia).
  rewrite Z.mod_mul, Z.div_mul by lia.
  replace (2 ^ (k - 1) <? 0) with false by (symmetry; apply Z.ltb_ge; lia).
  replace (0 =? 2 ^ (k - 1)) with false by (symmetry; apply Z.eqb_neq; lia).
  done.
Qed.

Lemma pow2_53_lt : 2 ^ 53 * 2 ^ 1074 < 2 ^ 2098.
Proof. rewrite <- Z.pow_add_r by lia. apply Z.pow_lt_mono_r; lia. Qed.

(** Whole numbers up to 2^53 in magnitude are binary64 values. *)
Lemma binary64_whole n : Z.abs n ≤ 2 ^ 53 → binary64 (n * 2 ^ 1074) = whole n.
Proof.
  intros Hn. unfold binary64, whole.
  assert (0 < 2 ^ 1074) as Hp by (apply Z.pow_pos_nonneg; lia).
  assert (Z.abs (n * 2 ^ 1074) = Z.abs n * 2 ^ 1074) as -> by (rewrite Z.abs_mul; f_equal; lia).
  assert (round_magnitude (Z.abs n * 2 ^ 1074) = Z.abs n * 2 ^ 1074) as ->.
  { destruct (decide (Z.abs n = 2 ^ 53)) as [->|Hne].
    - rewrite <- Z.pow_add_r by lia.
      rewrite <- (Z.mul_1_l (2 ^ _)). apply round_magnitude_exact; lia.
    - apply round_magnitude_exact; lia. }
  pose proof pow2_53_lt.
  replace (2 ^ 2098 <=? Z.abs n * 2 ^ 1074) with false by (symmetry; apply Z.leb_gt; nia).
  f_equal. rewrite Z.mul_assoc. f_equal. rewrite Z.sgn_mul.
  replace (Z.sgn (2 ^ 1074)) with 1 by (symmetry; apply Z.sgn_pos; lia).
  rewrite Z.mul_1_r. by destruct n.
Qed.

(** Rounding keeps the sign: a result that is not below zero passes
    the validator. *)
Lemma binary64_min_0 u : 0 ≤ u → min_0 (binary64 u) = true.
Proof.
  intros Hu. unfold binary64, min_0, num_geb.
  pose proof (round_magnitude_nonneg (Z.abs u)) as Hr.
  destruct (2 ^ 2098 <=? _).
  - replace (u <? 0) with false by (symmetry; apply Z.ltb_ge; lia). done.
  - cbn. apply Z.leb_le. apply Z.mul_nonneg_nonneg; lia.
Qed.

#[local] Arguments binary64 : simpl never.
#[local] Arguments whole : simpl never.

Lemma num_sub_Fin b z : num_sub (Fin b) (Fin z) = binary64 (b - z).
Proof. done. Qed.

Lemma num_add_Fin c z : num_add (Fin c) (Fin z) = binary64 (c + z).
Proof. done. Qed.


Lemma whole_add a b : Z.abs (a + b) ≤ 2 ^ 53 → num_add (whole a) (whole b) = whole (a + b).
Proof.
  intros H. unfold whole at 1 2. rewrite num_add_Fin, <- Z.mul_add_distr_r.
  by apply binary64_whole.
Qed.

Lemma whole_sub a b : Z.abs (a - b) ≤ 2 ^ 53 → num_sub (whole a) (whole b) = whole (a - b).
Proof.
  intros H. unfold whole at 1 2. rewrite num_sub_Fin, <- Z.mul_sub_distr_r.
  by apply binary64_whole.
Qed.

Lemma whole_plus a b : num_plus (whole a) (whole b) = whole (a + b).
Proof. unfold whole. cbn. f_equal. lia. Qed.

Lemma whole_ltb a b : num_ltb (whole a) (whole b) = (a <? b).
Proof.
  unfold whole. cbn. assert (0 < 2 ^ 1074) by (apply Z.pow_pos_nonneg; lia).
  destruct (a <? b) eqn:E.
  - apply Z.ltb_lt in E. apply Z.ltb_lt. nia.
  - apply Z.ltb_ge in E. apply Z.ltb_ge. nia.
Qed.

Lemma whole_inj a b : whole a = whole b → a = b.
Proof.
  unfold whole. intros [= H]. assert (0 < 2 ^ 1074) by (apply Z.pow_pos_nonneg; lia). nia.
Qed.

Lemma whole_0 : whole 0 = Fin 0.
Proof. done. Qed.

(** ** Sums over a collection *)

Lemma total_delete (s : collection) k a :
  s !! k = Some a → total s = num_plus (balance a) (total (delete k s)).
Proof.
  intros Hk. unfold total.
  apply (map_fold_delete_L (fun _ a acc => num_plus (balance a) acc)); [|done].
  intros. apply num_plus_swap.
Qed.

Lemma total_alter (s : collection) k a f :
  s !! k = Some a → total (alter f k s) = num_plus (balance (f a)) (total (delete k s)).
Proof.
  intros Hk.
  rewrite (total_delete (alter f k s) k (f a)).
  - f_equal. f_equal. apply map_eq. intros j.
    destruct (decide (j = k)) as [->|Hne].
    + by rewrite !lookup_delete_eq.
    + by rewrite !lookup_delete_ne, lookup_alter_ne.
  - by rewrite lookup_alter_eq, Hk.
Qed.

Lemma total_insert_new (s : collection) k a :
  s !! k = None → total (<[k := a]> s) = num_plus (balance a) (total s).
Proof.
  intros Hk. unfold total.
  apply (map_fold_insert_L (fun _ a acc => num_plus (balance a) acc)); [|done].
  intros. apply num_plus_swap.
Qed.

(** The sum of whole balances that are not below zero is one. *)
Lemma whole_total (s : collection) :
  whole_balances s → ∃ t, total s = whole t ∧ 0 ≤ t.
Proof.
  induction s as [|k a s Hk _ IH] using map_first_key_ind.
  - intros _. exists 0. done.
  - intros Hs. destruct IH as (t & Ht & Ht0).
    { intros j b Hj. apply (Hs j). rewrite lookup_insert_ne; [done|]. congruence. }
    destruct (Hs k a) as (n & Hn & Hn0); [by rewrite lookup_insert_eq|].
    exists (n + t). rewrite total_insert_new, Hn, Ht, whole_plus by done. split; [done|lia].
Qed.

(** ** Running the route *)

Lemma next_fault_0 faults : next_fault faults = fault_at 0 faults.
Proof. by destruct faults. Qed.

Lemma fault_at_tail i faults : fault_at i (tail faults) = fault_at (S i) faults.
Proof. destruct faults; [by destruct i|done]. Qed.

(** A request that passes step 1 carries a number above zero. *)
Lemma validate_amount req : validate req = None → positive_number (amount req) = true.
Proof.
  unfold validate, positive_number. intros H.
  destruct (amount req) as [| | |[| | |z]| |]; cbn in H; repeat case_match; try done.
  - match goal with H : _ || true = false |- _ => by rewrite orb_true_r in H end.
  - cbn in *. apply Z.ltb_lt.
    match goal with H : (_ <=? _) = false |- _ => apply Z.leb_gt in H end. lia.
Qed.

#[local] Arguments min_0 : simpl never.
#[local] Arguments num_sub : simpl never.
#[local] Arguments num_add : simpl never.
#[local] Arguments num_ltb : simpl never.
#[local] Arguments to_number : simpl never.
#[local] Arguments json_number : simpl never.

(** Comparisons of finite numbers, as facts about [Z]. *)
Ltac num_solve :=
  unfold min_0, num_geb, num_leb, num_ltb, to_number in *;
  cbn in *;
  rewrite ?Z.ltb_lt, ?Z.ltb_ge, ?Z.leb_le, ?Z.leb_gt in *;
  lia.

Lemma validate_status req r : validate req = Some r → kind_of r = Some InvalidArgument.
Proof. unfold validate. intros H. repeat case_match; by simplify_eq. Qed.

Lemma validate_400 req r : validate req = Some r → status r = 400.
Proof. unfold validate. intros H. repeat case_match; by simplify_eq. Qed.

(** What step 1 has checked of a request it lets through. *)
Lemma validate_passed req :
  validate req = None →
  truthy (fromAccountId req) = true ∧ truthy (toAccountId req) = true
  ∧ positive_number (amount req) = true
  ∧ strict_eq (fromAccountId req) (toAccountId req) = false
  ∧ isValid (fromAccountId req) = true ∧ isValid (toAccountId req) = true.
Proof.
  intros Hv. pose proof (validate_amount _ Hv) as Hpos.
  unfold validate in Hv.
  destruct (truthy (fromAccountId req)), (truthy (toAccountId req)),
    (truthy (amount req)); cbn in Hv; try done.
  destruct (negb (is_number (amount req)) || num_leb (to_number (amount req)) (Fin 0));
    [done|].
  destruct (strict_eq (fromAccountId req) (toAccountId req)); [done|].
  destruct (isValid (fromAccountId req)), (isValid (toAccountId req)); cbn in Hv; done.
Qed.

(** The amount of a request that passes step 1, when it is finite. *)
Lemma validate_finite req z :
  validate req = None → amount req = JNum (Fin z) → 0 < z.
Proof.
  intros Hv Ha. apply validate_amount in Hv. rewrite Ha in Hv. cbn in Hv. num_solve.
Qed.

(** The route, call by call: each [match] is an [await], each result
    a [return] or the [catch]. *)
Lemma run_transfer req faults s :
  run (transfer req) faults s =
  match validate req with
  | Some r => (Ok r, s, [])
  | None =>
    let x := to_number (amount req) in
    let reads := [EFind (fromAccountId req); EFind (toAccountId req)] in
    match read 0 (fromAccountId req) faults s with
    | Err e => (Ok (failed e), s, [EFind (fromAccountId req)])
    | Ok sender =>
      match read 1 (toAccountId req) faults s with
      | Err e => (Ok (failed e), s, reads)
      | Ok receiver =>
        match sender, receiver with
        | None, _ => (Ok (res 404 (Msg "Sender account not found.")), s, reads)
        | Some _, None => (Ok (res 404 (Msg "Receiver account not found.")), s, reads)
        | Some sender, Some receiver =>
          if num_ltb (balance sender) x
          then (Ok (res 400 (Insufficient "Insufficient funds."
                               (JNum (balance sender)) (amount req))), s, reads)
          else
            let dS := doc_set_balance (num_sub (balance sender) x) sender in
            let dR := doc_set_balance (num_add (balance receiver) x) receiver in
            match write 2 dS faults s with
            | (Err e, s1) => (Ok (failed e), s1, reads ++ [ESave dS])
            | (Ok _, s1) =>
              match write 3 dR faults s1 with
              | (Err e, s2) => (Ok (failed e), s2, reads ++ [ESave dS; ESave dR])
              | (Ok _, s2) =>
                (Ok (res 200 (Success "Transfer successful!"
                                (JNum (balance dS)) (JNum (balance dR)))),
                 s2, reads ++ [ESave dS; ESave dR])
              end
            end
        end
      end
    end
  end.
Proof.
  unfold transfer, transfer_body, read, write, failed.
  destruct (validate req) as [r|]; [done|].
  repeat (cbn -[db_findById db_save res]; rewrite ?next_fault_0, ?fault_at_tail;
          repeat match goal with H : ?x = _ |- context [?x] => rewrite H end;
          try done;
          match goal with
          | |- context [fault_at ?i faults] => destruct (fault_at i faults) eqn:?
          | |- context [db_findById ?id ?s] => destruct (db_findById id s) as [[?|]|?] eqn:?
          | |- context [num_ltb ?a ?b] => destruct (num_ltb a b) eqn:?
          | |- context [db_save ?d ?s] => destruct (db_save d s) as [[[]|?] ?] eqn:?
          end).
Qed.

(** ** Reads and writes *)

Lemma num_eqb_eq a b : num_eqb a b = true → a = b.
Proof.
  unfold num_eqb. destruct a, b; try done; by intros ?%bool_decide_eq_true.
Qed.

Lemma set_balance_same (a : Account) : set_balance (balance a) a = a.
Proof. by destruct a. Qed.

(** Setting a balance changes neither the name nor the version. *)
Lemma lookup_alter_name v j (s : collection) k :
  name <$> alter (set_balance v) j s !! k = name <$> s !! k.
Proof. rewrite lookup_alter. case_decide; [subst|done]. by destruct (s !! k). Qed.

Lemma lookup_alter_version v j (s : collection) k :
  __v <$> alter (set_balance v) j s !! k = __v <$> s !! k.
Proof. rewrite lookup_alter. case_decide; [subst|done]. by destruct (s !! k). Qed.

(** A document as [findById] returned it. *)
Lemma doc_loaded (d : Document) : isModified d = false → d = mkDocument (_id d) (fields d).
Proof. destruct d. cbn. by intros ->. Qed.

(** What an answered read and an accepted write say of the collection. *)
Lemma read_found i id faults s d :
  read i id faults s = Ok (Some d) →
  fault_at i faults = false ∧ castObjectId id = Some (_id d) ∧ s !! _id d = Some (fields d)
  ∧ isModified d = false.
Proof.
  unfold read, db_findById. destruct (fault_at i faults); [done|].
  destruct (castObjectId id) as [k|]; [|done].
  destruct (s !! k) as [a|] eqn:Hk; cbn; [|done]. intros [= <-]. by cbn.
Qed.

Lemma read_absent i id faults s :
  read i id faults s = Ok None →
  fault_at i faults = false ∧ ∃ k, castObjectId id = Some k ∧ s !! k = None.
Proof.
  unfold read, db_findById. destruct (fault_at i faults); [done|].
  destruct (castObjectId id) as [k|]; [|done].
  destruct (s !! k) as [a|] eqn:Hk; cbn; [done|]. eauto.
Qed.

Lemma read_answer i id faults s k :
  fault_at i faults = false → castObjectId id = Some k →
  read i id faults s = Ok (mkDocument k <$> s !! k).
Proof. intros F Hk. unfold read, db_findById. by rewrite F, Hk. Qed.

Lemma write_accepted i d faults s s1 :
  write i d faults s = (Ok (), s1) →
  fault_at i faults = false ∧ min_0 (balance d) = true ∧ is_Some (s !! _id d)
  ∧ s1 = if isModified d then alter (set_balance (balance d)) (_id d) s else s.
Proof.
  unfold write, db_save. destruct (fault_at i faults); [done|].
  destruct (min_0 (balance d)); cbn; [|done].
  destruct (s !! _id d) eqn:Hk; [|done]. intros [= <-]. eauto.
Qed.

Lemma write_refused i d faults s e s1 :
  write i d faults s = (Err e, s1) → s1 = s.
Proof.
  unfold write, db_save. destruct (fault_at i faults); [by intros [= _ <-]|].
  destruct (min_0 (balance d)); cbn; [|by intros [= _ <-]].
  destruct (s !! _id d); [done|by intros [= _ <-]].
Qed.

(** A save of a document that was loaded from the record now stored
    leaves the collection as an update of the balance would: when the
    value is the one the record holds, no update is sent and none is
    needed. *)
Lemma db_save_loaded (d : Document) v s :
  isModified d = false → s !! _id d = Some (fields d) →
  db_save (doc_set_balance v d) s =
    if min_0 v then (Ok (), alter (set_balance v) (_id d) s) else (Err ValidationError, s).
Proof.
  intros Hm Hs. unfold db_save. cbn. rewrite Hs, Hm.
  destruct (min_0 v); cbn; [|done]. f_equal.
  destruct (num_eqb v (balance d)) eqn:E; cbn; [|done].
  apply num_eqb_eq in E as ->. symmetry. apply map_eq. intros j.
  destruct (decide (j = _id d)) as [->|Hne].
  - rewrite lookup_alter_eq, Hs. cbn. by rewrite set_balance_same.
  - by rewrite lookup_alter_ne.
Qed.

Lemma write_fresh i (d : Document) v faults s :
  fault_at i faults = false →
  isModified d = false → s !! _id d = Some (fields d) → min_0 v = true →
  write i (doc_set_balance v d) faults s = (Ok (), alter (set_balance v) (_id d) s).
Proof.
  intros F Hm Hs Hv. unfold write. by rewrite F, db_save_loaded, Hv.
Qed.

Lemma write_invalid i (d : Document) v faults s :
  fault_at i faults = false → min_0 v = false →
  write i (doc_set_balance v d) faults s = (Err ValidationError, s).
Proof. intros F Hv. unfold write, db_save. cbn. by rewrite F, Hv. Qed.

Lemma write_loaded i (d : Document) v faults s s1 :
  isModified d = false → s !! _id d = Some (fields d) →
  write i (doc_set_balance v d) faults s = (Ok (), s1) →
  fault_at i faults = false ∧ min_0 v = true ∧ s1 = alter (set_balance v) (_id d) s.
Proof.
  intros Hm Hs. unfold write. destruct (fault_at i faults); [done|].
  rewrite db_save_loaded by done. destruct (min_0 v); [|done]. by intros [= <-].
Qed.

(** ** Every exit of the route *)

(** A run of the route leaves by one of the exits. *)
Lemma run_exit req faults s :
  ∃ r s' tr, run (transfer req) faults s = (Ok r, s', tr) ∧ exit req faults s r s' tr.
Proof.
  rewrite run_transfer.
  destruct (validate req) as [r|] eqn:Hv.
  { eexists _, _, _. split; [reflexivity|]. by constructor. }
  cbn zeta.
  destruct (read 0 _ faults s) as [[sender|]|e0] eqn:R0;
    [| |eexists _, _, _; split; [reflexivity|]; by constructor].
  - destruct (read 1 _ faults s) as [[receiver|]|e1] eqn:R1;
      [| |eexists _, _, _; split; [reflexivity|]; by econstructor].
    2:{ eexists _, _, _. split; [reflexivity|]. by econstructor. }
    destruct (num_ltb _ _) eqn:Hlt.
    { eexists _, _, _. split; [reflexivity|]. by econstructor. }
    destruct (write 2 _ faults s) as [[[]|e2] s1] eqn:W2.
    2:{ eexists _, _, _. split; [reflexivity|]. by eapply exit_first_save. }
    destruct (write 3 _ faults s1) as [[[]|e3] s2] eqn:W3.
    + eexists _, _, _. split; [reflexivity|]. by eapply exit_success.
    + eexists _, _, _. split; [reflexivity|]. by eapply exit_second_save.
  - destruct (read 1 _ faults s) as [receiver|e1] eqn:R1.
    + destruct receiver; (eexists _, _, _; split; [reflexivity|]; by econstructor).
    + eexists _, _, _. split; [reflexivity|]. by econstructor.
Qed.

Lemma run_exit_of req faults s r s' tr :
  run (transfer req) faults s = (Ok r, s', tr) → exit req faults s r s' tr.
Proof.
  intros Hrun. destruct (run_exit req faults s) as (r0 & s0 & tr0 & Hrun0 & He).
  rewrite Hrun in Hrun0. by injection Hrun0 as <- <- <-.
Qed.

Ltac no_save :=
  intros ? Hin; first
    [ reflexivity
    | exfalso;
      repeat match goal with
             | H : _ ∈ _ :: _ |- _ => inversion H; clear H; subst
             | H : _ ∈ [] |- _ => inversion H
             end ].

(** What the handler writes, in terms of [debit] and [credit]. *)
Lemma alter_debit (s : collection) kf sa x :
  s !! kf = Some sa →
  alter (set_balance (num_sub (balance sa) x)) kf s = debit kf x s.
Proof. intros H. apply alter_ext. intros a Ha. by simplify_eq. Qed.


(** Between two different accounts the exits are three effects. *)
Lemma transfer_outcomes req faults s :
  distinct_accounts req →
  ∃ r s' tr, run (transfer req) faults s = (Ok r, s', tr) ∧ transfer_effect req s r s' tr.
Proof.
  intros Hd. destruct (run_exit req faults s) as (r & s' & tr & Hrun & He).
  exists r, s', tr. split; [done|].
  destruct He as [r Hv| | | | |
                  |sender receiver e s1 x dS Hv R0 R1 Hlt W2
                  |sender receiver e s1 s2 x dS dR Hv R0 R1 Hlt W2 W3
                  |sender receiver s1 s2 x dS dR Hv R0 R1 Hlt W2 W3];
    try (by apply effect_none; [|no_save]).
  - apply effect_none; [|no_save]. by rewrite (validate_400 _ _ Hv).
  - apply write_refused in W2 as ->. apply effect_none; [done|by intros].
  - apply read_found in R0 as (_ & Hkf & Hsa & Mf), R1 as (_ & Hkt & Hra & Mt).
    apply write_loaded in W2 as (_ & Hm1 & ->); [|done..].
    apply write_refused in W3 as ->.
    subst dS dR. rewrite (doc_loaded sender Mf), (doc_loaded receiver Mt).
    by apply (effect_debit req s (_id sender) (_id receiver) sender receiver).
  - apply read_found in R0 as (_ & Hkf & Hsa & Mf), R1 as (_ & Hkt & Hra & Mt).
    assert (_id sender ≠ _id receiver) as Hne.
    { intros Heq. apply Hd. by rewrite Hkf, Hkt, Heq. }
    apply write_loaded in W2 as (_ & Hm1 & ->); [|done..].
    apply write_loaded in W3 as (_ & Hm2 & ->); [|done|by rewrite lookup_alter_ne].
    subst dS dR. rewrite (doc_loaded sender Mf), (doc_loaded receiver Mt).
    by apply (effect_both req s (_id sender) (_id receiver) sender receiver).
Qed.

(** ** Whole amounts *)

Lemma min_0_whole n : 0 ≤ n → min_0 (whole n) = true.
Proof.
  intros Hn. unfold min_0, num_geb, whole. cbn. apply Z.leb_le.
  apply Z.mul_nonneg_nonneg; [done|]. apply Z.pow_nonneg. lia.
Qed.

Lemma whole_positive req z :
  validate req = None → amount req = JNum (whole z) → 0 < z.
Proof.
  intros Hv Ha. apply validate_amount in Hv. rewrite Ha in Hv.
  unfold positive_number in Hv. cbn in Hv. unfold to_number in Hv.
  rewrite <- whole_0, whole_ltb in Hv. by apply Z.ltb_lt.
Qed.

(** Two balances of a collection of whole balances are together at
    most its sum. *)
Lemma whole_two_le (s : collection) kf kt sa ra b c t :
  whole_balances s → total s = whole t →
  kf ≠ kt → s !! kf = Some sa → s !! kt = Some ra →
  balance sa = whole b → balance ra = whole c →
  ∃ rest, total (delete kf (delete kt s)) = whole rest ∧ 0 ≤ rest ∧ t = b + c + rest.
Proof.
  intros Hs Ht Hne Hsa Hra Hb Hc.
  destruct (whole_total (delete kf (delete kt s))) as (rest & Hrest & Hrest0).
  { intros j a Hj. apply (Hs j).
    destruct (decide (j = kf)) as [->|?]; [by rewrite lookup_delete_eq in Hj|].
    rewrite lookup_delete_ne in Hj by done.
    destruct (decide (j = kt)) as [->|?]; [by rewrite lookup_delete_eq in Hj|].
    by rewrite lookup_delete_ne in Hj. }
  exists rest. split; [done|]. split; [done|].
  rewrite (total_delete s kt ra), (total_delete (delete kt s) kf sa) in Ht
    by by rewrite ?lookup_delete_ne.
  rewrite Hb, Hc, Hrest, !whole_plus in Ht. apply whole_inj in Ht. lia.
Qed.

Lemma total_both (s : collection) kf kt sa ra b c z :
  kf ≠ kt → s !! kf = Some sa → s !! kt = Some ra →
  balance sa = whole b → balance ra = whole c →
  total (alter (set_balance (whole (c + z))) kt
           (alter (set_balance (whole (b - z))) kf s)) = total s.
Proof.
  intros Hne Hsa Hra Hb Hc.
  rewrite (total_alter _ kt ra) by by rewrite lookup_alter_ne.
  rewrite delete_alter_ne by done.
  rewrite (total_alter _ kf sa) by by rewrite lookup_delete_ne.
  rewrite (total_delete s kt ra), (total_delete (delete kt s) kf sa)
    by by rewrite ?lookup_delete_ne.
  cbn. rewrite Hb, Hc, !num_plus_assoc, !whole_plus. do 2 f_equal. lia.
Qed.

(** One answered transfer of a whole amount, in a collection of whole
    balances whose sum is at most 2^53: no result is rounded, so the
    balances stay whole and their sum stays. *)
Lemma whole_step req faults s r s' tr t :
  whole_balances s → total s = whole t → t ≤ 2 ^ 53 →
  distinct_accounts req → whole_amount req →
  run (transfer req) faults s = (Ok r, s', tr) → status r ≠ 500 →
  whole_balances s' ∧ total s' = total s.
Proof.
  intros Hs Ht Ht53 Hd [z Hz] Hrun Hr.
  destruct (transfer_outcomes req faults s Hd) as (r0 & s0 & tr0 & Hrun0 & He).
  rewrite Hrun in Hrun0. injection Hrun0 as <- <- <-.
  destruct He as [| |kf kt sa ra x Hv Hkf Hkt Hsa Hra Hlt Hm1 Hm2]; try done.
  assert (kf ≠ kt) as Hne by (intros ->; apply Hd; by rewrite Hkf, Hkt).
  destruct (Hs kf sa Hsa) as (b & Hb & Hb0). destruct (Hs kt ra Hra) as (c & Hc & Hc0).
  pose proof (whole_positive req z Hv Hz) as Hz0.
  destruct (whole_two_le s kf kt sa ra b c t) as (rest & _ & Hrest & ->); try done.
  subst x. rewrite Hz in *. unfold to_number in *. rewrite Hb, Hc in *.
  rewrite whole_ltb in Hlt. apply Z.ltb_ge in Hlt.
  rewrite whole_sub, whole_add in * by lia.
  split; [|by apply (total_both s kf kt sa ra)].
  intros j a. rewrite !lookup_alter. repeat case_decide; subst.
  - rewrite Hra. intros [= <-]. exists (c + z). split; [done|lia].
  - rewrite Hra. intros [= <-]. exists (c + z). split; [done|lia].
  - rewrite Hsa. intros [= <-]. exists (b - z). split; [done|lia].
  - apply Hs.
Qed.

Lemma serve_total reqs s t :
  whole_balances s → total s = whole t → t ≤ 2 ^ 53 →
  Forall (fun rf => distinct_accounts rf.1 ∧ whole_amount rf.1) reqs →
  Forall (fun o => ∃ r, o = Ok r ∧ status r ≠ 500) (serve reqs s).1 →
  total (serve reqs s).2 = total s.
Proof.
  intros Hs Ht Ht53 Hall. revert s Hs Ht.
  induction Hall as [|[rq fs] rest [Hrq Hwh] _ IH]; intros s Hs Ht; [done|].
  cbn [serve].
  destruct (transfer_outcomes rq fs s Hrq) as (r & s1 & tr & Hrun & _). rewrite Hrun.
  destruct (serve rest s1) as [os s2] eqn:Hrest. cbn [fst snd].
  intros Hok. apply Forall_cons in Hok as [(r' & [= <-] & Hr) Hok].
  destruct (whole_step rq fs s r s1 tr t) as [Hs1 Ht1]; try done.
  specialize (IH s1 Hs1). rewrite Hrest in IH. cbn [fst snd] in IH.
  rewrite IH; [done|congruence|done].
Qed.


(** The calls of a request that passes step 1 and finds both accounts,
    up to the balance check. *)
Lemma run_found req faults s kf kt sa ra :
  validate req = None →
  castObjectId (fromAccountId req) = Some kf →
  castObjectId (toAccountId req) = Some kt →
  s !! kf = Some sa → s !! kt = Some ra →
  fault_at 0 faults = false → fault_at 1 faults = false →
  run (transfer req) faults s =
    let x := to_number (amount req) in
    let reads := [EFind (fromAccountId req); EFind (toAccountId req)] in
    if num_ltb (balance sa) x
    then (Ok (res 400 (Insufficient "Insufficient funds." (JNum (balance sa)) (amount req))),
          s, reads)
    else
      match write 2 (debited kf sa x) faults s with
      | (Err e, s1) => (Ok (failed e), s1, reads ++ [ESave (debited kf sa x)])
      | (Ok _, s1) =>
        match write 3 (credited kt ra x) faults s1 with
        | (Err e, s2) =>
          (Ok (failed e), s2, reads ++ [ESave (debited kf sa x); ESave (credited kt ra x)])
        | (Ok _, s2) =>
          (Ok (res 200 (Success "Transfer successful!"
                          (JNum (num_sub (balance sa) x)) (JNum (num_add (balance ra) x)))),
           s2, reads ++ [ESave (debited kf sa x); ESave (credited kt ra x)])
        end
      end.
Proof.
  intros Hv Hkf Hkt Hsa Hra F0 F1.
  rewrite run_transfer, Hv. cbn zeta.
  by rewrite (read_answer 0 _ _ _ kf), (read_answer 1 _ _ _ kt), Hsa, Hra.
Qed.

(** C2, as the code has it.  When the two reads and the sender's save
    go through and the receiver's save fails (the database refuses the
    call, or the validator refuses the new balance), the answer is
    status 500 and the collection keeps the sender's debit: the
    sender's balance is the old one less the amount, and the receiver's
    record is as it was.  Nothing puts the old balance back. *)
Theorem second_save_failure_keeps_debit req faults s kf kt sa ra :
  validate req = None →
  castObjectId (fromAccountId req) = Some kf →
  castObjectId (toAccountId req) = Some kt →
  kf ≠ kt →
  s !! kf = Some sa → s !! kt = Some ra →
  num_ltb (balance sa) (to_number (amount req)) = false →
  min_0 (num_sub (balance sa) (to_number (amount req))) = true →
  fault_at 0 faults = false → fault_at 1 faults = false → fault_at 2 faults = false →
  fault_at 3 faults = true ∨ min_0 (num_add (balance ra) (to_number (amount req))) = false →
  ∃ e s' tr,
    run (transfer req) faults s = (Ok (res 500 (Failure "Error during transfer" e)), s', tr) ∧
    balance_of kf s' = Some (num_sub (balance sa) (to_number (amount req))) ∧
    s' !! kt = Some ra ∧
    s' = debit kf (to_number (amount req)) s.
Proof.
  intros Hv Hkf Hkt Hne Hsa Hra Hlt Hm1 F0 F1 F2 Hfail.
  assert (∃ e, run (transfer req) faults s =
            (Ok (res 500 (Failure "Error during transfer" e)),
             alter (set_balance (num_sub (balance sa) (to_number (amount req)))) kf s,
             [EFind (fromAccountId req); EFind (toAccountId req);
              ESave (debited kf sa (to_number (amount req)));
              ESave (credited kt ra (to_number (amount req)))])) as [e He].
  { rewrite (run_found req faults s kf kt sa ra) by done. cbn zeta. rewrite Hlt.
    unfold debited, credited. rewrite write_fresh by done. cbn [_id mkDocument].
    destruct (fault_at 3 faults) eqn:F3.
    - exists StoreError. unfold write. by rewrite F3.
    - destruct Hfail as [|Hm2]; [done|]. exists ValidationError.
      by rewrite write_invalid. }
  eexists _, _, _. split; [exact He|]. split; [|split].
  - unfold balance_of. by rewrite lookup_alter_eq, Hsa.
  - by rewrite lookup_alter_ne.
  - by apply alter_debit.
Qed.

(** The path on which every call is answered and every check passes. *)
Lemma run_success req faults s kf kt sa ra :
  validate req = None →
  castObjectId (fromAccountId req) = Some kf →
  castObjectId (toAccountId req) = Some kt →
  kf ≠ kt →
  s !! kf = Some sa → s !! kt = Some ra →
  num_ltb (balance sa) (to_number (amount req)) = false →
  min_0 (num_sub (balance sa) (to_number (amount req))) = true →
  min_0 (num_add (balance ra) (to_number (amount req))) = true →
  fault_at 0 faults = false → fault_at 1 faults = false →
  fault_at 2 faults = false → fault_at 3 faults = false →
  run (transfer req) faults s =
    (Ok (res 200 (Success "Transfer successful!"
                    (JNum (num_sub (balance sa) (to_number (amount req))))
                    (JNum (num_add (balance ra) (to_number (amount req)))))),
     alter (set_balance (num_add (balance ra) (to_number (amount req)))) kt
       (alter (set_balance (num_sub (balance sa) (to_number (amount req)))) kf s),
     [EFind (fromAccountId req); EFind (toAccountId req);
      ESave (debited kf sa (to_number (amount req)));
      ESave (credited kt ra (to_number (amount req)))]).
Proof.
  intros Hv Hkf Hkt Hne Hsa Hra Hlt Hm1 Hm2 F0 F1 F2 F3.
  rewrite (run_found req faults s kf kt sa ra) by done. cbn zeta. rewrite Hlt.
  unfold debited, credited. rewrite write_fresh by done. cbn [_id mkDocument].
  rewrite write_fresh; [done..|by rewrite lookup_alter_ne|done].
Qed.

Lemma strict_eq_sym a b : strict_eq a b = strict_eq b a.
Proof.
  destruct a as [| |b1|n1|s1|r1], b as [| |b2|n2|s2|r2]; simpl; try done.
  - by destruct b1, b2.
  - destruct n1, n2; try done. cbn. apply bool_decide_ext. split; congruence.
  - apply String.eqb_sym.
  - apply Nat.eqb_sym.
Qed.

Lemma validate_swap a b amt :
  validate (mkBody a b amt) = None → validate (mkBody b a amt) = None.
Proof.
  unfold validate. cbn [fromAccountId toAccountId amount].
  rewrite (strict_eq_sym b a).
  destruct (truthy a), (truthy b), (truthy amt), (is_number amt),
    (num_leb (to_number amt) (Fin 0)), (strict_eq a b), (isValid a), (isValid b);
    cbn; congruence.
Qed.

(** One transfer there and one back put the collection back as it
    was, when each runs alone and is answered and no result is
    rounded. *)
Lemma there_and_back a b z s kA kB accA accB x y :
  validate (mkBody a b (JNum (whole z))) = None →
  castObjectId a = Some kA → castObjectId b = Some kB → kA ≠ kB →
  s !! kA = Some accA → s !! kB = Some accB →
  balance accA = whole x → balance accB = whole y →
  z ≤ x → x ≤ 2 ^ 53 → 0 ≤ y → y + z ≤ 2 ^ 53 →
  ∃ r1 r2 s1 tr1 tr2,
    run (transfer (mkBody a b (JNum (whole z)))) [] s = (Ok r1, s1, tr1) ∧
    run (transfer (mkBody b a (JNum (whole z)))) [] s1 = (Ok r2, s, tr2) ∧
    status r1 = 200 ∧ status r2 = 200.
Proof.
  intros Hv HkA HkB Hne HA HB Hx Hy Hzx Hx53 Hy0 Hyz.
  pose proof (whole_positive _ z Hv eq_refl) as Hz.
  eexists _, _, _, _, _. split; [|split].
  - apply (run_success _ [] s kA kB accA accB); cbn [fromAccountId toAccountId amount];
      unfold to_number; rewrite ?Hx, ?Hy; try done.
    + rewrite whole_ltb. apply Z.ltb_ge. lia.
    + rewrite whole_sub by lia. apply min_0_whole. lia.
    + rewrite whole_add by lia. apply min_0_whole. lia.
  - cbn [amount]. unfold to_number. rewrite Hx, Hy, whole_sub, whole_add by lia.
    rewrite (run_success _ [] _ kB kA
               (set_balance (whole (y + z)) accB) (set_balance (whole (x - z)) accA));
      cbn [fromAccountId toAccountId amount balance set_balance]; unfold to_number;
      try done.
    + do 2 f_equal. rewrite whole_sub, whole_add by lia.
      apply map_eq. intros k.
      destruct (decide (k = kA)) as [->|HnA]; [|destruct (decide (k = kB)) as [->|HnB]].
      * rewrite lookup_alter_eq, lookup_alter_ne, lookup_alter_ne, lookup_alter_eq by done.
        rewrite HA. cbn. f_equal. destruct accA; cbn in *. subst.
        unfold set_balance; cbn. do 2 f_equal. lia.
      * rewrite lookup_alter_ne, lookup_alter_eq, lookup_alter_eq by done.
        rewrite lookup_alter_ne, HB by done. cbn. f_equal. destruct accB; cbn in *. subst.
        unfold set_balance; cbn. do 2 f_equal. lia.
      * by rewrite !lookup_alter_ne.
    + by apply validate_swap.
    + by rewrite lookup_alter_eq, lookup_alter_ne, HB.
    + by rewrite lookup_alter_ne, lookup_alter_eq, HA.
    + rewrite whole_ltb. apply Z.ltb_ge. lia.
    + rewrite whole_sub by lia. apply min_0_whole. lia.
    + rewrite whole_add by lia. apply min_0_whole. lia.
  - done.
Qed.

(** C3, as the code has it.  An even number of transfers of one whole
    amount between two different accounts, in alternating directions,
    served one at a time with every call answered, the balances whole
    numbers, the amount within the first sender's balance, and no
    balance on the way above 2^53: every transfer is answered with
    status 200 and the collection ends as it began. *)
Theorem serial_alternating_restores m a b z s kA kB accA accB x y :
  validate (mkBody a b (JNum (whole z))) = None →
  castObjectId a = Some kA → castObjectId b = Some kB → kA ≠ kB →
  s !! kA = Some accA → s !! kB = Some accB →
  balance accA = whole x → balance accB = whole y →
  z ≤ x → x ≤ 2 ^ 53 → 0 ≤ y → y + z ≤ 2 ^ 53 →
  (serve ((fun r => (r, [])) <$> alternating (2 * m) a b (JNum (whole z))) s).2 = s
  ∧ Forall (fun o => ∃ r, o = Ok r ∧ status r = 200)
      (serve ((fun r => (r, [])) <$> alternating (2 * m) a b (JNum (whole z))) s).1.
Proof.
  intros Hv HkA HkB Hne HA HB Hx Hy Hzx Hx53 Hy0 Hyz.
  destruct (there_and_back a b z s kA kB accA accB x y)
    as (r1 & r2 & s1 & tr1 & tr2 & H1 & H2 & Hr1 & Hr2); try done.
  induction m as [|m [IHs IHr]]; [by split|].
  replace (2 * S m)%nat with (S (S (2 * m))) by lia.
  cbn [alternating fmap list_fmap serve]. rewrite H1, H2.
  destruct (serve _ s) as [os s2]. cbn [fst snd] in *. split; [done|].
  repeat constructor; eauto.
Qed.

(** ** A run alone is one of the interleavings *)

Lemma exec_cons c schedule st :
  exec (c :: schedule) st = exec schedule (step c.1 c.2 st).
Proof. done. Qed.

Lemma step_alone fault (p : prog response) s :
  step 0 fault (s, [p]) = ((perform fault p s).2, [(perform fault p s).1]).
Proof. done. Qed.

Lemma run_is_an_interleaving (p : prog response) faults s :
  exec (alone p faults s) (s, [p])
  = ((run p faults s).1.2, [await (run p faults s).1.1]).
Proof.
  revert faults s. induction p as [| |id k IH|d k IH]; intros faults s; try done.
  - cbn [alone run]. rewrite exec_cons, step_alone. cbn [fst snd perform].
    rewrite IH. by destruct (run (k _) _ _) as [[? ?] ?].
  - cbn [alone run]. rewrite exec_cons, step_alone. cbn [fst snd perform].
    destruct (next_fault faults); cbn [fst snd];
      rewrite IH; by destruct (run (k _) _ _) as [[? ?] ?].
Qed.

(** ** Balances never go below zero *)

Lemma db_save_non_negative d s k :
  non_negative k s → non_negative k (db_save d s).2.
Proof.
  intros (v & Hv & Hpos). unfold db_save.
  destruct (min_0 (balance d)) eqn:Hm; cbn; [|by exists v].
  destruct (s !! _id d) as [a|] eqn:Ha; cbn; [|by exists v].
  destruct (isModified d); [|by exists v].
  unfold non_negative, balance_of in *.
  destruct (decide (_id d = k)) as [<-|Hne].
  - rewrite lookup_alter_eq, Ha. cbn. eauto.
  - rewrite lookup_alter_ne by done. eauto.
Qed.

Lemma perform_non_negative {A} fault (p : prog A) s k :
  non_negative k s → non_negative k (perform fault p s).2.
Proof.
  intros H. destruct p; cbn; try done.
  destruct fault; cbn; [done|]. by apply db_save_non_negative.
Qed.

Lemma run_non_negative {A} (p : prog A) faults s k :
  non_negative k s → non_negative k (run p faults s).1.2.
Proof.
  revert faults s. induction p as [| |id c IH|d c IH]; intros faults s Hs; cbn; try done.
  - specialize (IH (if next_fault faults then Err StoreError else db_findById id s)
                  (tail faults) s Hs).
    by destruct (run (c _) _ _) as [[? ?] ?].
  - set (r := if next_fault faults then _ else _).
    assert (non_negative k r.2) as Hr.
    { subst r. destruct (next_fault faults); [done|]. by apply db_save_non_negative. }
    specialize (IH r.1 (tail faults) r.2 Hr).
    by destruct (run (c _) _ _) as [[? ?] ?].
Qed.

Lemma serve_non_negative reqs s k :
  non_negative k s → non_negative k (serve reqs s).2.
Proof.
  revert s. induction reqs as [|[rq fs] rest IH]; intros s Hs; [done|].
  cbn [serve].
  pose proof (run_non_negative (transfer rq) fs s k Hs) as H1.
  destruct (run (transfer rq) fs s) as [[o s1] tr]. cbn [fst snd] in H1.
  specialize (IH s1 H1). by destruct (serve rest s1).
Qed.

Lemma exec_non_negative schedule st k :
  non_negative k st.1 → non_negative k (exec schedule st).1.
Proof.
  revert st. induction schedule as [|[i f] rest IH]; intros st Hs; [done|].
  cbn [exec foldl]. apply IH. unfold step. cbn [fst snd].
  destruct (st.2 !! i); [|done]. cbn [fst]. by apply perform_non_negative.
Qed.

(** C4.  An account whose balance is not below zero keeps a balance
    that is not below zero: after requests served one after the other,
    whatever they ask and whichever calls fail, and after any
    interleaving of any number of concurrent requests. *)
Theorem balance_stays_non_negative k s reqs schedule reqs' :
  non_negative k s →
  non_negative k (serve reqs s).2
  ∧ non_negative k (exec schedule (s, transfer <$> reqs')).1.
Proof.
  intros Hs. split.
  - by apply serve_non_negative.
  - by apply exec_non_negative.
Qed.

(** ** The saves of the route and the stored version *)

Lemma db_save_present (d : Document) s :
  min_0 (balance d) = true → is_Some (s !! _id d) →
  db_save d s = (Ok (), if isModified d then alter (set_balance (balance d)) (_id d) s else s).
Proof. intros Hm [a Ha]. unfold db_save. by rewrite Hm, Ha. Qed.



(** ** Refusals *)



(** X19.  A request whose two account ids are the same value is
    answered 400 by step 1, whatever its amount; the run makes no call
    to the database and leaves the collection alone.  With a non-empty
    id and an amount above zero the message is the one about the same
    account. *)
Theorem self_transfer_rejected X amt faults s :
  ∃ r,
    transfer (mkBody X X amt) = Ret r
    ∧ run (transfer (mkBody X X amt)) faults s = (Ok r, s, [])
    ∧ kind_of r = Some InvalidArgument
    ∧ (truthy X = true → positive_number amt = true →
       r = res 400 (Msg "Cannot transfer money to the same account.")).
Proof.
  unfold transfer, transfer_body, validate, positive_number.
  cbn [fromAccountId toAccountId amount].
  destruct (truthy X) eqn:HX; cbn.
  2:{ eexists. repeat split; done. }
  rewrite (strict_eq_refl X HX).
  destruct (truthy amt) eqn:Ha; cbn.
  2:{ eexists. repeat split; try done. intros _.
      destruct amt as [| | |[| | |z]| |]; try done. cbn in *.
      destruct (z =? 0) eqn:E; [|done]. apply Z.eqb_eq in E as ->. done. }
  destruct (is_number amt); cbn.
  2:{ eexists. repeat split; done. }
  destruct (num_leb (to_number amt) (Fin 0)) eqn:Hle; cbn.
  - eexists. repeat split; try done. intros _.
    destruct amt as [| | |[| | |z]| |]; try done. num_solve.
  - eexists. repeat split; done.
Qed.


(** C9, as the code has it.  An amount that is not a number above zero
    (absent, not a number, NaN, zero, negative, minus infinity) is
    refused by step 1 with status 400 before any call to the database:
    "Missing fields..." when one of the three fields is falsy,
    otherwise "Amount must be a positive number.".  Whatever step 1
    refuses is answered without a call.  Plus infinity is a number
    above zero and is let through. *)
Theorem amount_validation req faults s :
  positive_number (amount req) = false →
  ∃ r,
    validate req = Some r
    ∧ kind_of r = Some InvalidArgument
    ∧ json r = Msg (if truthy (fromAccountId req) && truthy (toAccountId req)
                       && truthy (amount req)
                    then "Amount must be a positive number."
                    else "Missing fields: fromAccountId, toAccountId, and amount are required.")
    ∧ run (transfer req) faults s = (Ok r, s, []).
Proof.
  intros Hp.
  assert (truthy (amount req) = true →
          negb (is_number (amount req)) || num_leb (to_number (amount req)) (Fin 0) = true)
    as Hamt.
  { unfold positive_number in Hp.
    destruct (amount req) as [| | |[| | |z]| |]; try done. cbn in *. intros _. num_solve. }
  rewrite run_transfer. unfold validate.
  destruct (truthy (fromAccountId req)), (truthy (toAccountId req)),
    (truthy (amount req)); cbn; try (eexists; repeat split; done).
  rewrite Hamt by done. eexists; repeat split; done.
Qed.

(** ** Frame *)

(** C10.  A transfer answered with status 200 made exactly two saves,
    on the sender's and on the receiver's record; every other record is
    untouched, the set of ids in the collection is the same, and no
    record's name has changed. *)
Theorem transfer_frame req faults s r s' tr :
  run (transfer req) faults s = (Ok r, s', tr) →
  status r = 200 →
  ∃ kf kt dS dR,
    castObjectId (fromAccountId req) = Some kf
    ∧ castObjectId (toAccountId req) = Some kt
    ∧ tr = [EFind (fromAccountId req); EFind (toAccountId req); ESave dS; ESave dR]
    ∧ _id dS = kf ∧ _id dR = kt
    ∧ (∀ k, k ≠ kf → k ≠ kt → s' !! k = s !! k)
    ∧ (∀ k, name <$> s' !! k = name <$> s !! k)
    ∧ dom s' = dom s.
Proof.
  intros Hrun Hr. apply run_exit_of in Hrun.
  destruct Hrun as [r Hv| | | | | | |
                    |sender receiver s1 s2 x dS dR Hv R0 R1 Hlt W2 W3]; try done.
  { apply validate_400 in Hv. by rewrite Hv in Hr. }
  apply read_found in R0 as (_ & Hkf & _ & _), R1 as (_ & Hkt & _ & _).
  apply write_accepted in W2 as (_ & _ & _ & ->), W3 as (_ & _ & _ & ->).
  exists (_id sender), (_id receiver), dS, dR.
  repeat split; try done.
  - intros k H1 H2. destruct (isModified dR), (isModified dS); by rewrite ?lookup_alter_ne.
  - intros k. destruct (isModified dR), (isModified dS); by rewrite ?lookup_alter_name.
  - apply set_eq. intros k. rewrite !elem_of_dom.
    destruct (isModified dR), (isModified dS); by rewrite ?lookup_alter_is_Some.
Qed.

(** ** The answers of the route *)

(** X1.  Whatever the request, the collection and the failures of the
    database, the route answers, with status 200, 400, 404 or 500, after
    at most four calls: no error escapes the [try]. *)
Theorem route_always_answers req faults s :
  ∃ r s' tr,
    run (transfer req) faults s = (Ok r, s', tr)
    ∧ (status r = 200 ∨ status r = 400 ∨ status r = 404 ∨ status r = 500)
    ∧ is_Some (kind_of r)
    ∧ (length tr ≤ 4)%nat.
Proof.
  destruct (run_exit req faults s) as (r & s' & tr & Hrun & He).
  exists r, s', tr. split; [done|].
  destruct He as [r Hv| | | | | | | |]; cbn; try (repeat split; eauto 10; lia).
  pose proof (validate_status _ _ Hv) as Hk. rewrite Hk.
  rewrite (validate_400 _ _ Hv). repeat split; eauto; lia.
Qed.

(** X2.  A request answered 400 or 404 wrote nothing: no save was
    issued and the collection is the one it found. *)
Theorem refusal_writes_nothing req faults s r s' tr :
  run (transfer req) faults s = (Ok r, s', tr) →
  status r = 400 ∨ status r = 404 →
  s' = s ∧ ∀ d, ESave d ∉ tr.
Proof.
  intros Hrun Hst. apply run_exit_of in Hrun.
  destruct Hrun; cbn in Hst; try (by destruct Hst);
    (split; [done|]; intros d Hd;
     repeat match goal with
            | H : _ ∈ _ :: _ |- _ => inversion H; clear H; subst
            | H : _ ∈ [] |- _ => inversion H
            end).
Qed.


(** X4.  A transfer is answered 200 only for a finite amount above
    zero that the sender's balance covers, between two ids that differ
    as values and are both well formed. *)
Theorem success_needs_covered_amount req faults s r s' tr :
  run (transfer req) faults s = (Ok r, s', tr) →
  status r = 200 →
  ∃ z kf sa,
    amount req = JNum (Fin z) ∧ 0 < z
    ∧ castObjectId (fromAccountId req) = Some kf
    ∧ s !! kf = Some sa
    ∧ num_leb (Fin z) (balance sa) = true
    ∧ strict_eq (fromAccountId req) (toAccountId req) = false
    ∧ isValid (fromAccountId req) = true ∧ isValid (toAccountId req) = true.
Proof.
  intros Hrun Hst. apply run_exit_of in Hrun.
  destruct Hrun as [r Hv| | | | | | |
                    |sender receiver s1 s2 x dS dR Hv R0 R1 Hlt W2 W3]; try done.
  { apply validate_400 in Hv. by rewrite Hv in Hst. }
  apply read_found in R0 as (_ & Hkf & Hsa & _).
  apply write_accepted in W2 as (_ & Hm1 & _ & _).
  pose proof (validate_amount _ Hv) as Hpos.
  destruct (validate_passed _ Hv) as (_ & _ & _ & Hne & Hv1 & Hv2).
  subst x dS. cbn in Hm1. unfold positive_number in Hpos.
  destruct (amount req) as [| | |[| | |z]| |]; try done;
    destruct (balance sender) as [| | |b] eqn:Hb; try done; clear Hm1.
  - exists z, (_id sender), (fields sender). rewrite Hb. repeat split; try done. num_solve.
  - exists z, (_id sender), (fields sender). rewrite Hb. repeat split; try done; num_solve.
Qed.

(** X5.  An amount that is not finite changes nothing: plus infinity
    passes step 1, but whatever the accounts hold no save of such a
    transfer is accepted, and the answer is not 200. *)
Theorem unbounded_amount_changes_nothing req faults s r s' tr :
  run (transfer req) faults s = (Ok r, s', tr) →
  is_finite (to_number (amount req)) = false →
  s' = s ∧ status r ≠ 200.
Proof.
  intros Hrun Hinf. apply run_exit_of in Hrun.
  assert (∀ b : number, num_ltb b (to_number (amount req)) = false →
            min_0 (num_sub b (to_number (amount req))) = true →
            validate req = None → False) as Hno.
  { intros b Hlt Hm Hv. apply validate_amount in Hv. unfold positive_number in Hv.
    destruct (amount req) as [| | |[| | |z]| |]; try done. destruct b; done. }
  destruct Hrun as [r Hv| | | | | |sender receiver e s1 x dS Hv R0 R1 Hlt W2
                    |sender receiver e s1 s2 x dS dR Hv R0 R1 Hlt W2 W3
                    |sender receiver s1 s2 x dS dR Hv R0 R1 Hlt W2 W3]; try done.
  - split; [done|]. apply validate_400 in Hv. by rewrite Hv.
  - apply write_refused in W2 as ->. done.
  - apply write_accepted in W2 as (_ & Hm1 & _ & _). by destruct (Hno _ Hlt Hm1 Hv).
  - apply write_accepted in W2 as (_ & Hm1 & _ & _). by destruct (Hno _ Hlt Hm1 Hv).
Qed.

(** What the validator lets through of a debit within the balance and
    of a credit to a balance that is not below zero. *)
Lemma debit_accepted b z : z ≤ b → min_0 (num_sub (Fin b) (Fin z)) = true.
Proof. intros H. rewrite num_sub_Fin. apply binary64_min_0. lia. Qed.

Lemma credit_accepted c z : 0 ≤ c → 0 ≤ z → min_0 (num_add (Fin c) (Fin z)) = true.
Proof. intros H1 H2. rewrite num_add_Fin. apply binary64_min_0. lia. Qed.


(** X7.  When the two ids of a request are different values that the
    driver converts to the same ObjectId, step 1 lets the request
    through, the route reads the account twice and saves the copies one
    after the other, and the answer is 200 with the balance less the
    amount and the balance plus the amount.  When the sum differs from
    the balance, the second save overwrites the first and the account
    ends with the amount added.  When the amount is too small to change
    the sum as binary64 rounds it, the second document is unmodified,
    its save writes nothing, and the account ends with the debit. *)
Theorem one_account_under_two_ids req faults s k a z b :
  validate req = None →
  amount req = JNum (Fin z) →
  castObjectId (fromAccountId req) = Some k →
  castObjectId (toAccountId req) = Some k →
  s !! k = Some a → balance a = Fin b → z ≤ b →
  healthy faults →
  let less := num_sub (Fin b) (Fin z) in
  let more := num_add (Fin b) (Fin z) in
  ∃ s' tr,
    run (transfer req) faults s =
      (Ok (res 200 (Success "Transfer successful!" (JNum less) (JNum more))), s', tr)
    ∧ balance_of k s' = Some (if num_eqb more (Fin b) then less else more)
    ∧ (num_eqb more (Fin b) = false → s' = credit k (Fin z) s)
    ∧ ∀ j, j ≠ k → s' !! j = s !! j.
Proof.
  intros Hv Ha Hk1 Hk2 Hs Hb Hzb Hh less more.
  pose proof (validate_finite req z Hv Ha) as Hz.
  assert (min_0 less = true) as Hm1 by by apply debit_accepted.
  assert (min_0 more = true) as Hm2 by (apply credit_accepted; lia).
  rewrite (run_found req faults s k k a a) by done. cbn zeta.
  rewrite Ha, Hb. unfold to_number.
  assert (num_ltb (Fin b) (Fin z) = false) as -> by num_solve.
  unfold debited, credited. rewrite Hb. fold less more.
  rewrite write_fresh by done. cbn [_id mkDocument].
  unfold write. rewrite Hh, db_save_present;
    [|done|by cbn; rewrite lookup_alter_eq, Hs].
  cbn. rewrite Hb. eexists _, _. split; [reflexivity|].
  destruct (num_eqb more (Fin b)) eqn:E; cbn.
  - split; [|split; [done|]].
    + unfold balance_of. by rewrite lookup_alter_eq, Hs.
    + intros j Hj. by rewrite lookup_alter_ne.
  - split; [|split].
    + unfold balance_of. by rewrite lookup_alter_eq, lookup_alter_eq, Hs.
    + intros _. unfold credit. rewrite alter_alter_eq.
      apply alter_ext. intros a' Ha'. rewrite Hs in Ha'. injection Ha' as <-.
      cbn. by rewrite Hb.
    + intros j Hj. by rewrite !lookup_alter_ne.
Qed.

(** A save changes balances only. *)
Lemma db_save_keeps d s k :
  name <$> (db_save d s).2 !! k = name <$> s !! k
  ∧ __v <$> (db_save d s).2 !! k = __v <$> s !! k.
Proof.
  unfold db_save. destruct (negb (min_0 (balance d))); [done|].
  destruct (s !! _id d) eqn:Hd; [|done]. cbn.
  destruct (isModified d); [|done].
  by rewrite lookup_alter_name, lookup_alter_version.
Qed.

Lemma perform_keeps {A} fault (p : prog A) s k :
  name <$> (perform fault p s).2 !! k = name <$> s !! k
  ∧ __v <$> (perform fault p s).2 !! k = __v <$> s !! k.
Proof.
  destruct p; cbn; try done. destruct fault; cbn; [done|]. apply db_save_keeps.
Qed.

Lemma run_keeps {A} (p : prog A) faults s k :
  name <$> (run p faults s).1.2 !! k = name <$> s !! k
  ∧ __v <$> (run p faults s).1.2 !! k = __v <$> s !! k.
Proof.
  revert faults s. induction p as [| |id c IH|d c IH]; intros faults s; cbn; try done.
  - specialize (IH (if next_fault faults then Err StoreError else db_findById id s)
                  (tail faults) s).
    by destruct (run (c _) _ _) as [[? ?] ?].
  - set (w := if next_fault faults then _ else _).
    assert (name <$> w.2 !! k = name <$> s !! k ∧ __v <$> w.2 !! k = __v <$> s !! k)
      as [Hn Hv].
    { subst w. destruct (next_fault faults); [done|]. apply db_save_keeps. }
    specialize (IH w.1 (tail faults) w.2).
    destruct (run (c _) _ _) as [[? ?] ?]. cbn in *. by rewrite <- Hn, <- Hv.
Qed.

(** X8.  No transfer creates, deletes or renames an account, or touches
    its version key: after requests served one after the other, and
    after any interleaving of concurrent requests, under any failures,
    every id holds a record with the name and version it had, or still
    holds none. *)
Theorem records_keep_name_and_version reqs schedule reqs' s k :
  (name <$> (serve reqs s).2 !! k = name <$> s !! k
   ∧ __v <$> (serve reqs s).2 !! k = __v <$> s !! k)
  ∧ (name <$> (exec schedule (s, transfer <$> reqs')).1 !! k = name <$> s !! k
     ∧ __v <$> (exec schedule (s, transfer <$> reqs')).1 !! k = __v <$> s !! k).
Proof.
  split.
  - revert s. induction reqs as [|[rq fs] rest IH]; intros s; [done|].
    cbn [serve]. pose proof (run_keeps (transfer rq) fs s k) as [Hn Hv].
    destruct (run (transfer rq) fs s) as [[o s1] tr]. cbn [fst snd] in *.
    specialize (IH s1). destruct (serve rest s1). cbn [snd] in *.
    by rewrite <- Hn, <- Hv.
  - generalize (transfer <$> reqs'). intros pool. revert s pool.
    induction schedule as [|[i f] rest IH]; intros s pool; [done|].
    rewrite exec_cons. unfold step. cbn [fst snd].
    destruct (pool !! i) as [p|]; [|apply IH].
    pose proof (perform_keeps f p s k) as [Hn Hv].
    specialize (IH (perform f p s).2 (<[i := (perform f p s).1]> pool)).
    by rewrite <- Hn, <- Hv.
Qed.

(** X9.  The database is only ever asked about a request that passed
    step 1: if the run made any call, both ids are well formed and
    differ, the amount is a number above zero, and every read is of one
    of the two ids of the request. *)
Theorem only_checked_requests_reach_the_store req faults s r s' tr :
  run (transfer req) faults s = (Ok r, s', tr) →
  tr ≠ [] →
  validate req = None
  ∧ isValid (fromAccountId req) = true ∧ isValid (toAccountId req) = true
  ∧ strict_eq (fromAccountId req) (toAccountId req) = false
  ∧ positive_number (amount req) = true
  ∧ ∀ id, EFind id ∈ tr → id = fromAccountId req ∨ id = toAccountId req.
Proof.
  intros Hrun Htr. apply run_exit_of in Hrun.
  assert (validate req = None) as Hv by (destruct Hrun; done).
  destruct (validate_passed _ Hv) as (_ & _ & Hpos & Hne & Hv1 & Hv2).
  repeat split; try done.
  intros id Hin.
  destruct Hrun;
    repeat match goal with
           | H : _ ∈ _ :: _ |- _ => inversion H; clear H; subst
           | H : _ ∈ [] |- _ => inversion H
           end; eauto.
Qed.


(** ** Transfers on different accounts *)

Lemma apply_writes_cons w ws (s : collection) :
  apply_writes (w :: ws) s = apply_writes ws (alter (set_balance w.2) w.1 s).
Proof. done. Qed.

Lemma apply_writes_app ws1 ws2 (s : collection) :
  apply_writes (ws1 ++ ws2) s = apply_writes ws2 (apply_writes ws1 s).
Proof. unfold apply_writes. apply foldl_app. Qed.

Lemma apply_writes_other ws (s : collection) k :
  (∀ w, w ∈ ws → w.1 ≠ k) → apply_writes ws s !! k = s !! k.
Proof.
  revert s. induction ws as [|w ws IH]; intros s Hk; [done|].
  rewrite apply_writes_cons, IH.
  - apply lookup_alter_ne. apply Hk. by left.
  - intros w' Hw'. apply Hk. by right.
Qed.

Lemma apply_writes_lookup ws (s1 s2 : collection) k :
  s1 !! k = s2 !! k → apply_writes ws s1 !! k = apply_writes ws s2 !! k.
Proof.
  revert s1 s2. induction ws as [|w ws IH]; intros s1 s2 Hk; [done|].
  rewrite !apply_writes_cons. apply IH. rewrite !lookup_alter. case_decide; [subst|done].
  by rewrite Hk.
Qed.

Lemma apply_writes_present ws (s : collection) k :
  is_Some (apply_writes ws s !! k) ↔ is_Some (s !! k).
Proof.
  revert s. induction ws as [|w ws IH]; intros s; [done|].
  by rewrite apply_writes_cons, IH, lookup_alter_is_Some.
Qed.

Lemma apply_writes_comm ws1 ws2 (s : collection) :
  (∀ w1 w2, w1 ∈ ws1 → w2 ∈ ws2 → w1.1 ≠ w2.1) →
  apply_writes ws2 (apply_writes ws1 s) = apply_writes ws1 (apply_writes ws2 s).
Proof.
  intros Hd. apply map_eq. intros k.
  destruct (decide (k ∈ ws1.*1)) as [(w1 & -> & Hw1)%list_elem_of_fmap|Hno'].
  2: assert (¬ ∃ w, w ∈ ws1 ∧ w.1 = k) as Hno
       by (intros (w & Hw & <-); apply Hno'; by apply list_elem_of_fmap_2).
  - rewrite (apply_writes_other ws2) by (intros w2 Hw2 Heq; by apply (Hd w1 w2)).
    apply apply_writes_lookup. symmetry. apply apply_writes_other.
    intros w2 Hw2 Heq. by apply (Hd w1 w2).
  - rewrite (apply_writes_other ws1 (apply_writes ws2 s)) by (intros w Hw Heq; apply Hno; eauto).
    apply apply_writes_lookup. apply apply_writes_other. intros w Hw Heq. apply Hno; eauto.
Qed.

(** A save, as the update it sends. *)
Lemma write_shape i d faults (s : collection) :
  write i d faults s =
    ((write i d faults s).1,
     match (write i d faults s).1 with
     | Ok _ => apply_writes (update_of d) s
     | Err _ => s
     end).
Proof.
  unfold write, db_save, update_of. destruct (fault_at i faults); [done|].
  destruct (negb (min_0 (balance d))); [done|].
  destruct (s !! _id d); [|done]. cbn. by destruct (isModified d).
Qed.

(** Whether a save is accepted depends on the collection only through
    the presence of a record under the document's id. *)
Lemma write_outcome i d faults (s s' : collection) :
  (is_Some (s' !! _id d) ↔ is_Some (s !! _id d)) →
  (write i d faults s').1 = (write i d faults s).1.
Proof.
  intros H. unfold write, db_save. destruct (fault_at i faults); [done|].
  destruct (negb (min_0 (balance d))); [done|].
  destruct (s !! _id d) eqn:E, (s' !! _id d) eqn:E'; try done.
  - destruct H as [_ H]. by destruct H.
  - destruct H as [H _]. by destruct H.
Qed.

Lemma read_agree i id faults (s s' : collection) :
  (∀ k, castObjectId id = Some k → s' !! k = s !! k) →
  read i id faults s' = read i id faults s.
Proof.
  intros H. unfold read, db_findById. destruct (fault_at i faults); [done|].
  destruct (castObjectId id) as [k|]; [|done]. by rewrite H.
Qed.

(** The answer, the calls and the writes of a run depend on the
    collection only through the two records the request names. *)
Lemma run_local req faults (s : collection) :
  ∃ r ws tr,
    (∀ w, w ∈ ws → touches req w.1)
    ∧ ∀ s2, (∀ k, touches req k → s2 !! k = s !! k) →
        run (transfer req) faults s2 = (Ok r, apply_writes ws s2, tr).
Proof.
  assert (∀ s2, (∀ k, touches req k → s2 !! k = s !! k) →
            read 0 (fromAccountId req) faults s2 = read 0 (fromAccountId req) faults s
            ∧ read 1 (toAccountId req) faults s2 = read 1 (toAccountId req) faults s) as Hreads.
  { intros s2 Hag. split; apply read_agree; intros k Hk; apply Hag; [by left|by right]. }
  destruct (validate req) as [r|] eqn:Hv.
  { exists r, [], []. split; [by intros ? ?%elem_of_nil|]. intros.
    by rewrite run_transfer, Hv. }
  destruct (read 0 (fromAccountId req) faults s) as [sender|e0] eqn:R0.
  2:{ eexists _, [], _. split; [by intros ? ?%elem_of_nil|]. intros s2 Hag.
      destruct (Hreads s2 Hag) as [E0 E1]. by rewrite run_transfer, Hv, E0, ?R0. }
  destruct (read 1 (toAccountId req) faults s) as [receiver|e1] eqn:R1.
  2:{ eexists _, [], _. split; [by intros ? ?%elem_of_nil|]. intros s2 Hag.
      destruct (Hreads s2 Hag) as [E0 E1]. by rewrite run_transfer, Hv, E0, ?R0, E1, ?R1. }
  destruct sender as [sender|].
  2:{ eexists _, [], _. split; [by intros ? ?%elem_of_nil|]. intros s2 Hag.
      destruct (Hreads s2 Hag) as [E0 E1]. by rewrite run_transfer, Hv, E0, ?R0, E1, ?R1. }
  destruct receiver as [receiver|].
  2:{ eexists _, [], _. split; [by intros ? ?%elem_of_nil|]. intros s2 Hag.
      destruct (Hreads s2 Hag) as [E0 E1]. by rewrite run_transfer, Hv, E0, ?R0, E1, ?R1. }
  destruct (num_ltb (balance sender) (to_number (amount req))) eqn:Hlt.
  { eexists _, [], _. split; [by intros ? ?%elem_of_nil|]. intros s2 Hag.
    destruct (Hreads s2 Hag) as [E0 E1].
    rewrite run_transfer, Hv, E0, ?R0, E1, ?R1. cbn zeta. by rewrite Hlt. }
  apply read_found in R0 as R0'. destruct R0' as (_ & Hkf & _ & _).
  apply read_found in R1 as R1'. destruct R1' as (_ & Hkt & _ & _).
  set (dS := doc_set_balance (num_sub (balance sender) (to_number (amount req))) sender).
  set (dR := doc_set_balance (num_add (balance receiver) (to_number (amount req))) receiver).
  assert (touches req (_id dS)) as Tf by by left.
  assert (touches req (_id dR)) as Tt by by right.
  assert (∀ w, w ∈ update_of dS → touches req w.1) as TS.
  { intros w. unfold update_of. destruct (isModified dS); [|by intros ?%elem_of_nil].
    by intros ->%list_elem_of_singleton. }
  assert (∀ w, w ∈ update_of dR → touches req w.1) as TR.
  { intros w. unfold update_of. destruct (isModified dR); [|by intros ?%elem_of_nil].
    by intros ->%list_elem_of_singleton. }
  destruct (write 2 dS faults s).1 as [[]|e2] eqn:W2.
  2:{ eexists _, [], _. split; [by intros ? ?%elem_of_nil|]. intros s2 Hag.
      destruct (Hreads s2 Hag) as [E0 E1].
      rewrite run_transfer, Hv, E0, ?R0, E1, ?R1. cbn zeta. rewrite Hlt. fold dS dR.
      rewrite (write_shape 2 dS), (write_outcome 2 dS faults s s2), W2; [done|].
      by rewrite (Hag _ Tf). }
  destruct (write 3 dR faults (apply_writes (update_of dS) s)).1 as [[]|e3] eqn:W3.
  - eexists _, (update_of dS ++ update_of dR), _. split.
    { intros w [?|?]%elem_of_app; auto. }
    intros s2 Hag. destruct (Hreads s2 Hag) as [E0 E1].
    rewrite run_transfer, Hv, E0, ?R0, E1, ?R1. cbn zeta. rewrite Hlt. fold dS dR.
    rewrite (write_shape 2 dS), (write_outcome 2 dS faults s s2), W2
      by by rewrite (Hag _ Tf).
    rewrite (write_shape 3 dR),
      (write_outcome 3 dR faults (apply_writes (update_of dS) s)), W3
      by by rewrite !apply_writes_present, (Hag _ Tt).
    by rewrite apply_writes_app.
  - eexists _, (update_of dS), _. split; [done|].
    intros s2 Hag. destruct (Hreads s2 Hag) as [E0 E1].
    rewrite run_transfer, Hv, E0, ?R0, E1, ?R1. cbn zeta. rewrite Hlt. fold dS dR.
    rewrite (write_shape 2 dS), (write_outcome 2 dS faults s s2), W2
      by by rewrite (Hag _ Tf).
    rewrite (write_shape 3 dR),
      (write_outcome 3 dR faults (apply_writes (update_of dS) s)), W3
      by by rewrite !apply_writes_present, (Hag _ Tt).
    done.
Qed.

(** X11.  Two transfers that name no account in common commute: served
    in either order, with the same failures, each gets the same answer
    and the collection ends the same. *)
Theorem disjoint_transfers_commute req1 req2 f1 f2 s :
  (∀ k, touches req1 k → touches req2 k → False) →
  ∃ r1 r2 s',
    serve [(req1, f1); (req2, f2)] s = ([Ok r1; Ok r2], s')
    ∧ serve [(req2, f2); (req1, f1)] s = ([Ok r2; Ok r1], s').
Proof.
  intros Hd.
  destruct (run_local req1 f1 s) as (r1 & ws1 & tr1 & T1 & L1).
  destruct (run_local req2 f2 s) as (r2 & ws2 & tr2 & T2 & L2).
  exists r1, r2, (apply_writes ws2 (apply_writes ws1 s)).
  assert (∀ k, touches req2 k → apply_writes ws1 s !! k = s !! k) as A1.
  { intros k Hk. apply apply_writes_other. intros w Hw <-. by apply (Hd w.1); auto. }
  assert (∀ k, touches req1 k → apply_writes ws2 s !! k = s !! k) as A2.
  { intros k Hk. apply apply_writes_other. intros w Hw <-. by apply (Hd w.1); auto. }
  split.
  - cbn [serve]. rewrite (L1 s) by done. rewrite (L2 _ A1). done.
  - cbn [serve]. rewrite (L2 s) by done. rewrite (L1 _ A2).
    rewrite (apply_writes_comm ws1 ws2); [done|].
    intros w1 w2 Hw1 Hw2 Heq. apply (Hd w1.1); [auto|]. rewrite Heq. auto.
Qed.

(** ** Concurrent transfers on different accounts *)

Lemma transfer_within req : within (touches req) (transfer req).
Proof.
  unfold transfer, transfer_body.
  destruct (validate req); [constructor|]. cbn.
  constructor; [intros ? ?; by left|]. intros [[sender|]|e] Hs; cbn.
  - constructor; [intros ? ?; by right|]. intros [[receiver|]|e] Hr; cbn; try constructor.
    destruct (num_ltb _ _); cbn; [constructor|].
    constructor; [left; cbn; by apply Hs|]. intros [[]|e]; cbn; [|constructor].
    constructor; [right; cbn; by apply Hr|]. intros [[]|e]; cbn; constructor.
  - constructor; [intros ? ?; by right|]. intros [[receiver|]|e] Hr; cbn; constructor.
  - constructor.
Qed.

Lemma perform_within K fault (p : prog response) s :
  within K p → within K (perform fault p s).1.
Proof.
  intros [r|e|id k Hk Hc|d k Hk Hc]; cbn; try constructor.
  - apply Hc. intros d. destruct fault; [done|]. unfold db_findById.
    destruct (castObjectId id) as [key|]; [|done].
    destruct (s !! key); cbn; [|done]. by intros [= <-].
  - destruct fault; apply Hc.
Qed.

(** The save of a record under another id changes neither what a read
    finds nor whether a save is accepted. *)
Lemma db_save_elsewhere d s k : _id d ≠ k → (db_save d s).2 !! k = s !! k.
Proof.
  intros Hne. unfold db_save. destruct (negb (min_0 (balance d))); [done|].
  destruct (s !! _id d); [|done]. cbn. destruct (isModified d); [|done].
  by rewrite lookup_alter_ne.
Qed.

Lemma db_save_commute d1 d2 s :
  _id d1 ≠ _id d2 →
  (db_save d2 (db_save d1 s).2).1 = (db_save d2 s).1
  ∧ (db_save d2 (db_save d1 s).2).2 = (db_save d1 (db_save d2 s).2).2.
Proof.
  intros Hne. unfold db_save.
  destruct (negb (min_0 (balance d1))), (negb (min_0 (balance d2))); cbn; try done;
    destruct (s !! _id d1) eqn:H1, (s !! _id d2) eqn:H2; cbn;
    destruct (isModified d1), (isModified d2);
    rewrite ?lookup_alter_ne, ?H1, ?H2 by done; cbn; try done.
  split; [done|]. by apply alter_alter_ne.
Qed.

Lemma perform_commute K1 K2 f g (p q : prog response) s :
  within K1 p → within K2 q → (∀ k, K1 k → K2 k → False) →
  (perform f p (perform g q s).2).1 = (perform f p s).1
  ∧ (perform g q (perform f p s).2).1 = (perform g q s).1
  ∧ (perform f p (perform g q s).2).2 = (perform g q (perform f p s).2).2.
Proof.
  intros Hp Hq Hd.
  assert (∀ id d, (∀ key, castObjectId id = Some key → K1 key) → K2 (_id d) →
            db_findById id (db_save d s).2 = db_findById id s) as R12.
  { intros id d Hid Hd2. unfold db_findById.
    destruct (castObjectId id) as [key|] eqn:Hk; [|done].
    rewrite db_save_elsewhere; [done|]. intros <-. eapply Hd; eauto. }
  assert (∀ id d, (∀ key, castObjectId id = Some key → K2 key) → K1 (_id d) →
            db_findById id (db_save d s).2 = db_findById id s) as R21.
  { intros id d Hid Hd1. unfold db_findById.
    destruct (castObjectId id) as [key|] eqn:Hk; [|done].
    rewrite db_save_elsewhere; [done|]. intros <-. eapply Hd; eauto. }
  destruct Hp as [r|e|id k Hk _|d k Hk _], Hq as [r'|e'|id' k' Hk' _|d' k' Hk' _];
    cbn; try done.
  - destruct g; cbn; [done|]. destruct f; [done|]. by rewrite R12.
  - destruct f; cbn; [done|]. destruct g; [done|]. by rewrite R21.
  - assert (_id d ≠ _id d') as Hne by (intros Heq; apply (Hd (_id d)); [done|by rewrite Heq]).
    destruct f, g; cbn; try done.
    destruct (db_save_commute d d' s Hne) as [E1 E2].
    destruct (db_save_commute d' d s) as [E3 E4]; [done|].
    by rewrite E1, E3, E4.
Qed.

Lemma exec_app l1 l2 st : exec (l1 ++ l2) st = exec l2 (exec l1 st).
Proof. unfold exec. apply foldl_app. Qed.

Lemma step_apart K1 K2 i f st : apart K1 K2 st → apart K1 K2 (step i f st).
Proof.
  intros (p & q & Hst & Hp & Hq). destruct st as [s pool]. cbn in Hst. subst pool.
  destruct i as [|[|i]]; unfold step; cbn.
  - exists (perform f p s).1, q. by auto using perform_within.
  - exists p, (perform f q s).1. by auto using perform_within.
  - by exists p, q.
Qed.

Lemma exec_apart K1 K2 l st : apart K1 K2 st → apart K1 K2 (exec l st).
Proof.
  revert st. induction l as [|c l IH]; intros st Hst; [done|].
  rewrite exec_cons. by apply IH, step_apart.
Qed.

Lemma step_commute K1 K2 f g st :
  apart K1 K2 st → (∀ k, K1 k → K2 k → False) →
  step 0 f (step 1 g st) = step 1 g (step 0 f st).
Proof.
  intros (p & q & Hst & Hp & Hq) Hd. destruct st as [s pool]. cbn in Hst. subst pool.
  destruct (perform_commute K1 K2 f g p q s Hp Hq Hd) as (E1 & E2 & E3).
  unfold step. cbn. by rewrite E1, E2, E3.
Qed.

Lemma exec_first_past K1 K2 l g st :
  apart K1 K2 st → (∀ k, K1 k → K2 k → False) →
  Forall (fun c => c.1 = 0%nat) l →
  exec l (step 1 g st) = step 1 g (exec l st).
Proof.
  intros Hst Hd Hl. revert st Hst.
  induction Hl as [|[i f] l Hi _ IH]; intros st Hst; [done|].
  cbn in Hi. subst i. rewrite !exec_cons. cbn [fst snd].
  rewrite (step_commute K1 K2) by done.
  apply IH. by apply step_apart.
Qed.

Lemma exec_serial K1 K2 schedule st :
  apart K1 K2 st → (∀ k, K1 k → K2 k → False) →
  exec schedule st
  = exec (filter (fun c => c.1 = 0%nat) schedule ++ filter (fun c => c.1 = 1%nat) schedule) st.
Proof.
  intros Hst Hd. revert st Hst.
  induction schedule as [|[i g] rest IH]; intros st Hst; [done|].
  destruct i as [|[|i]].
  - rewrite filter_cons_True, filter_cons_False by done.
    cbn [app]. rewrite !exec_cons. apply IH. by apply step_apart.
  - rewrite filter_cons_False, filter_cons_True by done.
    rewrite exec_cons, IH by by apply step_apart.
    rewrite !exec_app, exec_cons. cbn [fst snd]. f_equal.
    apply (exec_first_past K1 K2); try done.
    apply Forall_forall. intros c Hc. by apply list_elem_of_filter in Hc as [? _].
  - rewrite !filter_cons_False by done. rewrite exec_cons. cbn [fst snd].
    assert (step (S (S i)) g st = st) as ->; [|by apply IH].
    destruct Hst as (p & q & Hpool & _). unfold step. cbn. by rewrite Hpool.
Qed.

(** X12.  Two concurrent transfers that name no account in common do
    not interfere: every interleaving of their database calls, with any
    failures, ends in the same collection and the same two answers as
    letting the first handler make all its calls and then the second. *)
Theorem disjoint_transfers_serialize req1 req2 schedule s :
  (∀ k, touches req1 k → touches req2 k → False) →
  exec schedule (s, [transfer req1; transfer req2])
  = exec (filter (fun c => c.1 = 0%nat) schedule ++ filter (fun c => c.1 = 1%nat) schedule)
      (s, [transfer req1; transfer req2]).
Proof.
  intros Hd. apply (exec_serial (touches req1) (touches req2)); [|done].
  exists (transfer req1), (transfer req2). auto using transfer_within.
Qed.

(** ** Every concurrent request is answered *)

Lemma transfer_settles req : settles (transfer req) 4.
Proof.
  unfold transfer, transfer_body.
  destruct (validate req); [done|]. cbn.
  intros [[sender|]|e]; cbn; [| |done].
  - intros [[receiver|]|e]; cbn; try done.
    destruct (num_ltb _ _); cbn; [done|].
    intros [[]|e]; cbn; [|done]. by intros [[]|e].
  - by intros [[receiver|]|e].
Qed.

Lemma perform_settles fault p s n :
  settles p (S n) → settles (perform fault p s).1 n.
Proof.
  destruct p as [r|e|id k|d k]; cbn; try done.
  intros H. destruct fault; cbn; apply H.
Qed.

Lemma exec_settles schedule s (pool : list (prog response)) i p n :
  pool !! i = Some p → settles p n →
  (n ≤ length (filter (fun c => c.1 = i) schedule))%nat →
  ∃ r, (exec schedule (s, pool)).2 !! i = Some (Ret r).
Proof.
  revert s pool p n.
  induction schedule as [|[j f] rest IH]; intros s pool p n Hp Hs Hn.
  { cbn in Hn. assert (n = 0%nat) as -> by lia.
    destruct p; cbn in Hs; try done. eauto. }
  rewrite exec_cons. unfold step. cbn [fst snd].
  destruct (decide (j = i)) as [->|Hne].
  - rewrite filter_cons_True in Hn by done. cbn in Hn. rewrite Hp.
    apply (IH _ _ (perform f p s).1 (pred n)).
    + apply list_lookup_insert_eq. by eapply lookup_lt_Some.
    + destruct n; [|by apply perform_settles].
      destruct p; cbn in Hs; try done.
    + lia.
  - rewrite filter_cons_False in Hn by done.
    destruct (pool !! j) as [q|] eqn:Hq.
    + apply (IH _ _ p n); try done. by rewrite list_lookup_insert_ne.
    + by apply (IH _ _ p n).
Qed.

(** X13.  Under concurrency every request is answered: whatever the
    other handlers do and whichever calls fail, a handler whose calls
    the schedule performs four times or more has sent its answer. *)
Theorem concurrent_request_is_answered reqs schedule s i req :
  reqs !! i = Some req →
  (4 ≤ length (filter (fun c => c.1 = i) schedule))%nat →
  ∃ r, (exec schedule (s, transfer <$> reqs)).2 !! i = Some (Ret r).
Proof.
  intros Hi Hn. apply (exec_settles _ _ _ _ (transfer req) 4); [|apply transfer_settles|done].
  by rewrite list_lookup_fmap, Hi.
Qed.

(** ** The other routes *)

Lemma db_find_spec (s : collection) d :
  d ∈ db_find s ↔ s !! _id d = Some (fields d) ∧ isModified d = false.
Proof.
  unfold db_find. rewrite list_elem_of_fmap. split.
  - intros ([k a] & -> & Hin). by apply elem_of_map_to_list in Hin.
  - intros [Hd Hm]. exists (_id d, fields d). split; [by apply doc_loaded|].
    by apply elem_of_map_to_list.
Qed.

Lemma setup_answered ida idb faults s :
  ida ≠ idb →
  fault_at 0 faults = false → fault_at 1 faults = false →
  setup_accounts ida idb faults s =
    (mkReply 201
       (Created "Test accounts created successfully!"
          [new_document ida "UserA" (whole 1000); new_document idb "UserB" (whole 500)]),
     <[idb := userB]> (<[ida := userA]> ∅)).
Proof.
  intros Hne F0 F1.
  unfold setup_accounts, db_insertMany, db_deleteMany. rewrite F0, F1.
  cbn [forallb insert_ordered new_document _id fields mkDocument].
  replace (valid_account _ && (valid_account _ && true)) with true by done.
  rewrite lookup_empty, lookup_insert_ne, lookup_empty by done. done.
Qed.

Lemma setup_total ida idb :
  ida ≠ idb → total (<[idb := userB]> (<[ida := userA]> ∅)) = whole 1500.
Proof.
  intros Hne. rewrite total_insert_new by by rewrite lookup_insert_ne, lookup_empty.
  rewrite total_insert_new by apply lookup_empty. done.
Qed.

Lemma setup_whole ida idb : whole_balances (<[idb := userB]> (<[ida := userA]> ∅)).
Proof.
  intros k a. rewrite !lookup_insert. repeat case_decide; try done.
  - intros [= <-]. exists 500. split; [done|lia].
  - intros [= <-]. exists 1000. split; [done|lia].
Qed.

(** X14.  With both calls answered and two different new ids, POST
    /setup-accounts answers 201 with the two documents it created and
    leaves exactly UserA with 1000 and UserB with 500, whatever the
    collection held before: every earlier account is gone and the
    balances sum to 1500. *)
Theorem setup_resets_the_collection ida idb faults s :
  ida ≠ idb →
  fault_at 0 faults = false → fault_at 1 faults = false →
  setup_accounts ida idb faults s =
    (mkReply 201
       (Created "Test accounts created successfully!"
          [new_document ida "UserA" (whole 1000); new_document idb "UserB" (whole 500)]),
     <[idb := userB]> (<[ida := userA]> ∅))
  ∧ (∀ k, k ≠ ida → k ≠ idb → (setup_accounts ida idb faults s).2 !! k = None)
  ∧ total (setup_accounts ida idb faults s).2 = whole 1500.
Proof.
  intros Hne F0 F1. rewrite (setup_answered ida idb faults s) by done.
  split; [done|]. split.
  - intros k H1 H2. cbn [snd]. by rewrite !lookup_insert_ne, lookup_empty.
  - by apply setup_total.
Qed.

(** X15.  A setup that is not answered 201 is answered 500, and it is
    all or nothing in one direction only: when the delete fails the
    collection is untouched, and when the insert fails after the delete
    went through the collection is left empty, the earlier accounts
    lost. *)
Theorem failed_setup_keeps_or_empties ida idb faults s :
  ida ≠ idb →
  code (setup_accounts ida idb faults s).1 ≠ 201 →
  code (setup_accounts ida idb faults s).1 = 500
  ∧ ((fault_at 0 faults = true ∧ (setup_accounts ida idb faults s).2 = s)
     ∨ (fault_at 0 faults = false ∧ fault_at 1 faults = true
        ∧ (setup_accounts ida idb faults s).2 = ∅)).
Proof.
  intros Hne Hcode.
  destruct (fault_at 0 faults) eqn:F0.
  { unfold setup_accounts. rewrite F0. cbn. split; [done|]. by left. }
  destruct (fault_at 1 faults) eqn:F1.
  { unfold setup_accounts. rewrite F0, F1. cbn. split; [done|]. by right. }
  by rewrite (setup_answered ida idb faults s) in Hcode.
Qed.

(** X16.  GET /accounts, when its read is answered, answers 200 with
    every record of the collection exactly once, under its own id and
    as a document nothing was changed on, and nothing else. *)
Theorem accounts_lists_every_record_once faults s :
  fault_at 0 faults = false →
  ∃ l,
    get_accounts faults s = mkReply 200 (Listing l)
    ∧ NoDup l
    ∧ length l = size s
    ∧ ∀ d, d ∈ l ↔ s !! _id d = Some (fields d) ∧ isModified d = false.
Proof.
  intros F0. exists (db_find s). unfold get_accounts. rewrite F0.
  split; [done|]. split; [|split].
  - unfold db_find. apply NoDup_fmap_2_strong; [|apply NoDup_map_to_list].
    intros [k1 a1] [k2 a2] _ _ [= -> ->]. done.
  - unfold db_find. by rewrite length_fmap, length_map_to_list.
  - apply db_find_spec.
Qed.

(** ** The routes together *)

(** X17.  Setup, then a transfer, then the listing: after an answered
    setup, a request of a whole amount up to 1000 from the id given to
    UserA to the id given to UserB is answered 200, and GET /accounts
    then lists exactly UserA with 1000 less the amount and UserB with
    500 plus the amount. *)
Theorem setup_transfer_list ida idb req z s0 :
  ida ≠ idb →
  validate req = None →
  amount req = JNum (whole z) → z ≤ 1000 →
  castObjectId (fromAccountId req) = Some ida →
  castObjectId (toAccountId req) = Some idb →
  ∃ s2 tr l,
    run (transfer req) [] (setup_accounts ida idb [] s0).2 =
      (Ok (res 200 (Success "Transfer successful!"
                      (JNum (whole (1000 - z))) (JNum (whole (500 + z))))),
       s2, tr)
    ∧ get_accounts [] s2 = mkReply 200 (Listing l)
    ∧ ∀ d, d ∈ l ↔ d = new_document ida "UserA" (whole (1000 - z))
                    ∨ d = new_document idb "UserB" (whole (500 + z)).
Proof.
  intros Hne Hv Ha Hz Hkf Hkt.
  pose proof (whole_positive req z Hv Ha) as Hz0.
  rewrite (setup_answered ida idb [] s0) by done. cbn [snd].
  assert (num_sub (balance userA) (to_number (amount req)) = whole (1000 - z)) as Hsub.
  { rewrite Ha. apply whole_sub. lia. }
  assert (num_add (balance userB) (to_number (amount req)) = whole (500 + z)) as Hadd.
  { rewrite Ha. apply whole_add. lia. }
  eexists _, _, _. split; [|split; [reflexivity|]].
  - rewrite (run_success req [] _ ida idb userA userB); try done.
    + by rewrite Hsub, Hadd.
    + by rewrite lookup_insert_ne, lookup_insert_eq.
    + by rewrite lookup_insert_eq.
    + rewrite Ha. unfold to_number. cbn [balance userA]. rewrite whole_ltb.
      apply Z.ltb_ge. lia.
    + rewrite Hsub. apply min_0_whole. lia.
    + rewrite Hadd. apply min_0_whole. lia.
  - intros d. rewrite db_find_spec. destruct d as [k a m]. cbn [_id fields isModified].
    destruct (decide (k = idb)) as [->|Hb]; [|destruct (decide (k = ida)) as [->|Ha']].
    + rewrite lookup_alter_eq, lookup_alter_ne, lookup_insert_eq by done. cbn.
      unfold new_document, mkDocument. split.
      * intros [[= Heq] ->]. subst a. by right.
      * intros [[= ? ? ?]|[= Heq ?]]; [congruence|by subst a m].
    + rewrite lookup_alter_ne, lookup_alter_eq, lookup_insert_ne, lookup_insert_eq by done.
      cbn. unfold new_document, mkDocument. split.
      * intros [[= Heq] ->]. subst a. by left.
      * intros [[= Heq ?]|[= ? ? ?]]; [by subst a m|congruence].
    + rewrite !lookup_alter_ne, !lookup_insert_ne, lookup_empty by done.
      unfold new_document, mkDocument. split; [by intros [? _]|].
      intros [[= ? ? ?]|[= ? ? ?]]; congruence.
Qed.

(** X18.  After an answered setup the balances sum to 1500, and they
    still do after any requests of whole amounts served one after the
    other, each between two different accounts and none answered
    500. *)
Theorem total_stays_1500_after_setup ida idb reqs s0 :
  ida ≠ idb →
  Forall (fun rf => distinct_accounts rf.1 ∧ whole_amount rf.1) reqs →
  Forall (fun o => ∃ r, o = Ok r ∧ status r ≠ 500)
    (serve reqs (setup_accounts ida idb [] s0).2).1 →
  total (serve reqs (setup_accounts ida idb [] s0).2).2 = whole 1500.
Proof.
  intros Hne Hall. rewrite (setup_answered ida idb [] s0) by done. cbn [snd].
  intros Hok. rewrite (serve_total _ _ 1500); try done.
  - by apply setup_total.
  - apply setup_whole.
  - by apply setup_total.
Qed.

End Handler.

(** ** The arithmetic on sample values

    [num_add] and [num_sub] on values whose binary64 results are
    known: 0.1 + 0.2 is 0.30000000000000004; 2^53 + 1 is 2^53 and
    2^53 - 1 is exact; the largest finite value added to itself is
    plus infinity; the smallest positive value added to itself is
    twice it; 1000 - 0.3 is 999.7, and 1000.3 + 123.456 is
    1123.7559999999999. *)
Remark binary64_samples :
  num_add (dyadic 3602879701896397 (-55)) (dyadic 3602879701896397 (-54))
    = dyadic 1351079888211149 (-52)
  ∧ num_add (whole (2 ^ 53)) (whole 1) = whole (2 ^ 53)
  ∧ num_sub (whole (2 ^ 53)) (whole 1) = whole (2 ^ 53 - 1)
  ∧ num_add (dyadic 9007199254740991 971) (dyadic 9007199254740991 971) = PosInf
  ∧ num_add (Fin 1) (Fin 1) = Fin 2
  ∧ num_sub (whole 1000) (dyadic 5404319552844595 (-54)) = dyadic 4396727097150669 (-42)
  ∧ num_add (dyadic 4399365925057331 (-42)) (dyadic 8687443681197687 (-46))
    = dyadic 2471165577566093 (-41).
Proof. by vm_compute. Qed.

(** ** The route on the sample collection

    The statements below run the route over the driver's behaviour on
    hexadecimal ids ([hexIsValid], [hexCast]) and the collection
    [seeded]: UserA holds 1000 and UserB holds 500. *)

Local Abbreviation route := (transfer hexIsValid).
Local Abbreviation run_route := (run hexCast (A := response)).
Local Abbreviation answered := [false; false; false; false].
Local Abbreviation credit_fails := [false; false; false; true].

(** The two ids of the sample collection convert to different keys,
    and the upper-case spelling of an id converts to the same key. *)
Lemma sample_keys :
  hexCast (JStr idA) = Some keyA ∧ hexCast (JStr idB) = Some keyB ∧ keyA ≠ keyB
  ∧ hexCast (JStr "64B7F0C2A1D3E4F5A6B7C8D9") = Some keyA.
Proof. by vm_compute. Qed.





(** A credit that binary64 absorbs.  UserB holds 1 and UserA holds
    2^53; UserB sends 1.  The answer is 200 with balances 0 and 2^53:
    the sum 2^53 + 1 rounds to 2^53, the receiver's document is
    unmodified and its save sends no update.  UserB is debited, UserA
    keeps 2^53, and the sum of the balances has dropped by 1. *)
Remark credit_absorbed_at_2_53 :
  let s := <[keyB := mkAccount "UserB" (whole 1) 0]>
             (<[keyA := mkAccount "UserA" (whole (2 ^ 53)) 0]> ∅) in
  ∃ s' dS dR,
    run_route (route (request idB idA (whole 1))) [] s
      = (Ok (res 200 (Success "Transfer successful!"
                        (JNum (whole 0)) (JNum (whole (2 ^ 53))))),
         s', [EFind (JStr idB); EFind (JStr idA); ESave dS; ESave dR])
    ∧ isModified dS = true ∧ isModified dR = false
    ∧ balance_of keyB s' = Some (whole 0)
    ∧ balance_of keyA s' = Some (whole (2 ^ 53))
    ∧ total s = whole (2 ^ 53 + 1) ∧ total s' = whole (2 ^ 53).
Proof. intros s. eexists _, _, _. split; [by vm_compute|]. by vm_compute. Qed.

(** C2, counterexample.  UserA sends 300 to UserB and the receiver's
    save fails: the sender's save succeeded, the caller got the error,
    and a read of UserA afterwards returns 700, not the 1000 it held
    before. *)
Lemma sender_left_debited :
  ∃ s' tr,
    run_route (route (request idA idB (whole 300))) credit_fails seeded
      = (Ok (res 500 (Failure "Error during transfer" StoreError)), s', tr)
    ∧ db_findById hexCast (JStr idA) seeded
      = Ok (Some (mkDocument keyA (mkAccount "UserA" (whole 1000) 0)))
    ∧ db_findById hexCast (JStr idA) s'
      = Ok (Some (mkDocument keyA (mkAccount "UserA" (whole 700) 0)))
    ∧ balance_of keyA s' ≠ balance_of keyA seeded.
Proof. eexists _, _. split; [by vm_compute|]. by vm_compute. Qed.

(** [second_save_failure_keeps_debit] on that run. *)
Lemma second_save_failure_witness :
  ∃ e s' tr,
    run_route (route (request idA idB (whole 300))) credit_fails seeded
      = (Ok (res 500 (Failure "Error during transfer" e)), s', tr)
    ∧ balance_of keyA s' = Some (num_sub (balance userA) (whole 300))
    ∧ s' !! keyB = Some userB
    ∧ s' = debit keyA (whole 300) seeded.
Proof.
  apply (second_save_failure_keeps_debit hexIsValid hexCast
           (request idA idB (whole 300)) credit_fails seeded keyA keyB userA userB);
    try (by vm_compute).
  left. by vm_compute.
Defined.

(** C3, counterexample.  Two runs.  In the first, two transfers of 100
    run concurrently, one from UserA to UserB and one back.  Both read
    both accounts before either saves; then the first saves, then the
    second saves what it computed from its own reads.  Both are
    answered 200, and UserA ends with 1100 and UserB with 400 instead
    of 1000 and 500: the first transfer's writes are lost.  In the
    second, UserA sends 333.33 to UserB and UserB sends it back, one
    transfer after the other: both are answered 200, and UserB ends
    with 499.99999999999994. *)
Lemma alternating_transfers_do_not_restore :
  (let pool := route <$> alternating 2 (JStr idA) (JStr idB) (JNum (whole 100)) in
   let schedule :=
     [(0, false); (0, false); (1, false); (1, false);
      (0, false); (0, false); (1, false); (1, false)]%nat in
   let final := exec hexCast schedule (seeded, pool) in
   fmap status <$> (responded <$> final.2) = [Some 200; Some 200]
   ∧ balance_of keyA seeded = Some (whole 1000) ∧ balance_of keyB seeded = Some (whole 500)
   ∧ balance_of keyA final.1 = Some (whole 1100) ∧ balance_of keyB final.1 = Some (whole 400)
   ∧ balance_of keyA final.1 ≠ balance_of keyA seeded
   ∧ balance_of keyB final.1 ≠ balance_of keyB seeded)
  ∧ (let served :=
       serve hexIsValid hexCast
         ((fun r => (r, [])) <$> alternating 2 (JStr idA) (JStr idB) (JNum amount_333_33))
         seeded in
     status_of <$> served.1 = [Some 200; Some 200]
     ∧ balance_of keyA served.2 = Some (whole 1000)
     ∧ balance_of keyB served.2 = Some (dyadic 8796093022207999 (-44))
     ∧ balance_of keyB served.2 ≠ balance_of keyB seeded).
Proof. split; by vm_compute. Qed.

(** [serial_alternating_restores] on four transfers of 100 between UserA
    and UserB. *)
Lemma serial_alternating_witness :
  (serve hexIsValid hexCast
     ((fun r => (r, [])) <$> alternating (2 * 2) (JStr idA) (JStr idB) (JNum (whole 100)))
     seeded).2 = seeded
  ∧ Forall (fun o => ∃ r, o = Ok r ∧ status r = 200)
      (serve hexIsValid hexCast
         ((fun r => (r, [])) <$> alternating (2 * 2) (JStr idA) (JStr idB) (JNum (whole 100)))
         seeded).1.
Proof.
  apply (serial_alternating_restores hexIsValid hexCast 2 (JStr idA) (JStr idB) 100
           seeded keyA keyB userA userB 1000 500); try (by vm_compute); lia.
Defined.

(** [balance_stays_non_negative] for UserA, under failing saves and
    under two concurrent debits that together exceed its balance. *)
Lemma balance_stays_non_negative_witness :
  let reqs :=
    [(request idA idB (whole 900), credit_fails); (request idA idB (whole 900), [])] in
  let schedule := [(0, false); (1, false); (1, false); (0, true); (1, false); (0, false)]%nat in
  let pool := [request idA idB (whole 800); request idA idB (whole 700)] in
  non_negative keyA seeded
  ∧ non_negative keyA (serve hexIsValid hexCast reqs seeded).2
  ∧ non_negative keyA (exec hexCast schedule (seeded, route <$> pool)).1.
Proof.
  intros reqs schedule pool.
  assert (non_negative keyA seeded) as H by (exists (whole 1000); by vm_compute).
  split; [exact H|].
  exact (balance_stays_non_negative hexIsValid hexCast keyA seeded reqs schedule pool H).
Defined.



(** The route looks for both accounts before it compares the balance:
    UserB, holding 500, asks to send 600 to a well-formed id that no
    account has, and the answer is 404 "Receiver account not found.". *)
Remark insufficient_sender_missing_receiver :
  balance_of keyB seeded = Some (whole 500)
  ∧ num_ltb (whole 500) (whole 600) = true
  ∧ run_route (route (request idB idC (whole 600))) [] seeded
    = (Ok (res 404 (Msg "Receiver account not found.")), seeded,
       [EFind (JStr idB); EFind (JStr idC)])
  ∧ kind_of (res 404 (Msg "Receiver account not found.")) = Some NotFound.
Proof. by vm_compute. Qed.


(** C7, at the failing input.  UserA's id is given in lower case as the
    sender and in upper case as the receiver.  The two strings differ,
    so the check of line 92 lets the request through; both convert to
    UserA's ObjectId.  The route reads UserA twice and saves both
    copies: the answer is 200, the save of the receiver's copy
    overwrites the sender's, and UserA ends with 1050 where it had
    1000.  The sum of the balances has grown from 1500 to 1550. *)
Lemma two_spellings_of_one_id :
  strict_eq (JStr idA) (JStr "64B7F0C2A1D3E4F5A6B7C8D9") = false
  ∧ hexCast (JStr idA) = hexCast (JStr "64B7F0C2A1D3E4F5A6B7C8D9")
  ∧ ∃ s' dS dR,
      run_route (route (request idA "64B7F0C2A1D3E4F5A6B7C8D9" (whole 50))) [] seeded
        = (Ok (res 200 (Success "Transfer successful!"
                          (JNum (whole 950)) (JNum (whole 1050)))),
           s',
           [EFind (JStr idA); EFind (JStr "64B7F0C2A1D3E4F5A6B7C8D9"); ESave dS; ESave dR])
      ∧ _id dS = keyA ∧ _id dR = keyA
      ∧ kind_of (res 200 (Success "Transfer successful!"
                            (JNum (whole 950)) (JNum (whole 1050))))
        ≠ Some InvalidArgument
      ∧ balance_of keyA s' = Some (whole 1050)
      ∧ total seeded = whole 1500 ∧ total s' = whole 1550.
Proof.
  split; [by vm_compute|]. split; [by vm_compute|].
  eexists _, _, _. split; [by vm_compute|]. by vm_compute.
Qed.

(** [self_transfer_rejected] on UserA sending 100 to itself. *)
Lemma self_transfer_witness :
  ∃ r,
    route (mkBody (JStr idA) (JStr idA) (JNum (whole 100))) = Ret r
    ∧ run_route (route (mkBody (JStr idA) (JStr idA) (JNum (whole 100)))) [] seeded
      = (Ok r, seeded, [])
    ∧ kind_of r = Some InvalidArgument
    ∧ (truthy (JStr idA) = true → positive_number (JNum (whole 100)) = true →
       r = res 400 (Msg "Cannot transfer money to the same account.")).
Proof.
  exact (self_transfer_rejected hexIsValid hexCast (JStr idA) (JNum (whole 100)) [] seeded).
Defined.



(** C9, counterexample.  An amount of plus infinity (the JSON number
    1e999) is not finite, yet step 1 lets the request through: the
    route goes on to read both accounts, and only the balance
    comparison turns the request down, with the answer for
    insufficient funds, in which the amount is written null. *)
Lemma infinite_amount_passes_validation :
  is_finite PosInf = false
  ∧ validate hexIsValid (request idA idB PosInf) = None
  ∧ run_route (route (request idA idB PosInf)) [] seeded
    = (Ok (res 400 (Insufficient "Insufficient funds." (JNum (whole 1000)) (JNum PosInf))),
       seeded, [EFind (JStr idA); EFind (JStr idB)])
  ∧ json (res 400 (Insufficient "Insufficient funds." (JNum (whole 1000)) (JNum PosInf)))
    = Insufficient "Insufficient funds." (JNum (whole 1000)) JNull
  ∧ kind_of (res 400 (Insufficient "Insufficient funds." (JNum (whole 1000)) (JNum PosInf)))
    ≠ Some InvalidArgument.
Proof. by vm_compute. Qed.

(** [amount_validation] on an amount of -5. *)
Lemma amount_validation_witness :
  let req := request idA idB (whole (-5)) in
  positive_number (amount req) = false
  ∧ ∃ r,
      validate hexIsValid req = Some r
      ∧ kind_of r = Some InvalidArgument
      ∧ json r = Msg (if truthy (fromAccountId req) && truthy (toAccountId req)
                         && truthy (amount req)
                      then "Amount must be a positive number."
                      else "Missing fields: fromAccountId, toAccountId, and amount are required.")
      ∧ run_route (route req) [] seeded = (Ok r, seeded, []).
Proof.
  intros req. split; [by vm_compute|].
  apply (amount_validation hexIsValid hexCast req [] seeded). by vm_compute.
Defined.

(** [transfer_frame] on UserA sending 300 to UserB. *)
Lemma transfer_frame_witness :
  ∃ kf kt dS dR,
    hexCast (JStr idA) = Some kf
    ∧ hexCast (JStr idB) = Some kt
    ∧ [EFind (JStr idA); EFind (JStr idB);
       ESave (debited keyA userA (whole 300)); ESave (credited keyB userB (whole 300))]
      = [EFind (JStr idA); EFind (JStr idB); ESave dS; ESave dR]
    ∧ _id dS = kf ∧ _id dR = kt
    ∧ (∀ k, k ≠ kf → k ≠ kt →
         credit keyB (whole 300) (debit keyA (whole 300) seeded) !! k = seeded !! k)
    ∧ (∀ k, name <$> credit keyB (whole 300) (debit keyA (whole 300) seeded) !! k
            = name <$> seeded !! k)
    ∧ dom (credit keyB (whole 300) (debit keyA (whole 300) seeded)) = dom seeded.
Proof.
  apply (transfer_frame hexIsValid hexCast (request idA idB (whole 300)) [] seeded
           (res 200 (Success "Transfer successful!" (JNum (whole 700)) (JNum (whole 800))))).
  - by vm_compute.
  - reflexivity.
Defined.

(** ** The further properties on the sample collection *)


Lemma sample_pairs_apart :
  ∀ k, touches hexCast (request idA idB (whole 300)) k →
       touches hexCast (request idC idD (whole 5)) k → False.
Proof. intros k [H|H] [H'|H']; vm_compute in H, H'; congruence. Qed.

(** [refusal_writes_nothing]: UserB, holding 500, asks to send 600. *)
Lemma refusal_writes_nothing_witness :
  seeded = seeded ∧ ∀ d, ESave d ∉ [EFind (JStr idB); EFind (JStr idA)].
Proof.
  apply (refusal_writes_nothing hexIsValid hexCast (request idB idA (whole 600)) [] seeded
           (res 400 (Insufficient "Insufficient funds."
                       (JNum (whole 500)) (JNum (whole 600))))).
  - by vm_compute.
  - by left.
Defined.


(** [success_needs_covered_amount] on the same transfer. *)
Lemma success_needs_covered_amount_witness :
  ∃ z kf sa,
    JNum (whole 300) = JNum (Fin z) ∧ 0 < z
    ∧ hexCast (JStr idA) = Some kf
    ∧ seeded !! kf = Some sa
    ∧ num_leb (Fin z) (balance sa) = true
    ∧ strict_eq (JStr idA) (JStr idB) = false
    ∧ hexIsValid (JStr idA) = true ∧ hexIsValid (JStr idB) = true.
Proof.
  apply (success_needs_covered_amount hexIsValid hexCast (request idA idB (whole 300)) []
           seeded
           (res 200 (Success "Transfer successful!" (JNum (whole 700)) (JNum (whole 800))))
           (credit keyB (whole 300) (debit keyA (whole 300) seeded))
           [EFind (JStr idA); EFind (JStr idB);
            ESave (debited keyA userA (whole 300)); ESave (credited keyB userB (whole 300))]).
  - by vm_compute.
  - reflexivity.
Defined.

(** [unbounded_amount_changes_nothing] on an amount of plus infinity. *)
Lemma unbounded_amount_witness :
  seeded = seeded
  ∧ status (res 400 (Insufficient "Insufficient funds." (JNum (whole 1000)) (JNum PosInf)))
    ≠ 200.
Proof.
  apply (unbounded_amount_changes_nothing hexIsValid hexCast (request idA idB PosInf) []
           seeded _ seeded [EFind (JStr idA); EFind (JStr idB)]).
  - by vm_compute.
  - reflexivity.
Defined.


(** [one_account_under_two_ids]: UserA's id in lower and in upper case. *)
Lemma one_account_under_two_ids_witness :
  let b := 1000 * 2 ^ 1074 in
  let z := 50 * 2 ^ 1074 in
  ∃ s' tr,
    run_route (route (request idA "64B7F0C2A1D3E4F5A6B7C8D9" (whole 50))) [] seeded =
      (Ok (res 200 (Success "Transfer successful!"
                      (JNum (num_sub (Fin b) (Fin z))) (JNum (num_add (Fin b) (Fin z))))),
       s', tr)
    ∧ balance_of keyA s'
      = Some (if num_eqb (num_add (Fin b) (Fin z)) (Fin b)
              then num_sub (Fin b) (Fin z) else num_add (Fin b) (Fin z))
    ∧ (num_eqb (num_add (Fin b) (Fin z)) (Fin b) = false → s' = credit keyA (Fin z) seeded)
    ∧ ∀ j, j ≠ keyA → s' !! j = seeded !! j.
Proof.
  intros b z.
  apply (one_account_under_two_ids hexIsValid hexCast
           (request idA "64B7F0C2A1D3E4F5A6B7C8D9" (whole 50)) [] seeded keyA userA z b);
    try (by vm_compute); try done.
Defined.

(** [only_checked_requests_reach_the_store] on UserA sending 300. *)
Lemma only_checked_requests_witness :
  validate hexIsValid (request idA idB (whole 300)) = None
  ∧ hexIsValid (JStr idA) = true ∧ hexIsValid (JStr idB) = true
  ∧ strict_eq (JStr idA) (JStr idB) = false
  ∧ positive_number (JNum (whole 300)) = true
  ∧ ∀ id, EFind id ∈ [EFind (JStr idA); EFind (JStr idB);
                      ESave (debited keyA userA (whole 300));
                      ESave (credited keyB userB (whole 300))] →
          id = JStr idA ∨ id = JStr idB.
Proof.
  apply (only_checked_requests_reach_the_store hexIsValid hexCast
           (request idA idB (whole 300)) [] seeded
           (res 200 (Success "Transfer successful!" (JNum (whole 700)) (JNum (whole 800))))
           (credit keyB (whole 300) (debit keyA (whole 300) seeded))).
  - by vm_compute.
  - done.
Defined.



(** [disjoint_transfers_commute]: one transfer between UserA and UserB
    whose receiver save fails, one between two absent accounts. *)
Lemma disjoint_transfers_commute_witness :
  ∃ r1 r2 s',
    serve hexIsValid hexCast
      [(request idA idB (whole 300), credit_fails); (request idC idD (whole 5), [])] seeded
      = ([Ok r1; Ok r2], s')
    ∧ serve hexIsValid hexCast
        [(request idC idD (whole 5), []); (request idA idB (whole 300), credit_fails)] seeded
      = ([Ok r2; Ok r1], s').
Proof.
  exact (disjoint_transfers_commute hexIsValid hexCast (request idA idB (whole 300))
           (request idC idD (whole 5)) credit_fails [] seeded sample_pairs_apart).
Defined.

(** [disjoint_transfers_serialize] on an interleaving of the two. *)
Lemma disjoint_transfers_serialize_witness :
  let schedule := [(1, false); (0, false); (1, false); (0, false); (0, true)]%nat in
  let pool := [route (request idA idB (whole 300)); route (request idC idD (whole 5))] in
  exec hexCast schedule (seeded, pool)
  = exec hexCast
      (filter (fun c => c.1 = 0%nat) schedule ++ filter (fun c => c.1 = 1%nat) schedule)
      (seeded, pool).
Proof.
  intros schedule pool.
  exact (disjoint_transfers_serialize hexIsValid hexCast (request idA idB (whole 300))
           (request idC idD (whole 5)) schedule seeded sample_pairs_apart).
Defined.

(** [concurrent_request_is_answered]: the second of two handlers, in the
    interleaving that loses an update. *)
Lemma concurrent_request_witness :
  let reqs := alternating 2 (JStr idA) (JStr idB) (JNum (whole 100)) in
  let schedule :=
    [(0, false); (0, false); (1, false); (1, false);
     (0, false); (0, false); (1, false); (1, false)]%nat in
  ∃ r, (exec hexCast schedule (seeded, route <$> reqs)).2 !! 1%nat = Some (Ret r).
Proof.
  intros reqs schedule.
  apply (concurrent_request_is_answered hexIsValid hexCast reqs schedule seeded 1
           (mkBody (JStr idB) (JStr idA) (JNum (whole 100)))).
  - reflexivity.
  - vm_compute. lia.
Defined.

(** [setup_resets_the_collection], run on a collection that holds other
    accounts. *)
Lemma setup_resets_witness :
  let old := <[5%N := mkAccount "Old" (whole 7) 0]> seeded in
  setup_accounts keyA keyB [] old =
    (mkReply 201
       (Created "Test accounts created successfully!"
          [new_document keyA "UserA" (whole 1000); new_document keyB "UserB" (whole 500)]),
     <[keyB := userB]> (<[keyA := userA]> ∅))
  ∧ (∀ k, k ≠ keyA → k ≠ keyB → (setup_accounts keyA keyB [] old).2 !! k = None)
  ∧ total (setup_accounts keyA keyB [] old).2 = whole 1500.
Proof.
  intros old. apply (setup_resets_the_collection keyA keyB [] old); by vm_compute.
Defined.

(** [failed_setup_keeps_or_empties]: the insert fails. *)
Lemma failed_setup_witness :
  code (setup_accounts keyA keyB [false; true] seeded).1 = 500
  ∧ ((fault_at 0 [false; true] = true
      ∧ (setup_accounts keyA keyB [false; true] seeded).2 = seeded)
     ∨ (fault_at 0 [false; true] = false ∧ fault_at 1 [false; true] = true
        ∧ (setup_accounts keyA keyB [false; true] seeded).2 = ∅)).
Proof.
  apply (failed_setup_keeps_or_empties keyA keyB [false; true] seeded); by vm_compute.
Defined.

(** [accounts_lists_every_record_once] on the sample collection. *)
Lemma accounts_listing_witness :
  ∃ l,
    get_accounts [] seeded = mkReply 200 (Listing l)
    ∧ NoDup l
    ∧ length l = size seeded
    ∧ ∀ d, d ∈ l ↔ seeded !! _id d = Some (fields d) ∧ isModified d = false.
Proof.
  apply (accounts_lists_every_record_once [] seeded). reflexivity.
Defined.

(** [setup_transfer_list] with an amount of 300. *)
Lemma setup_transfer_list_witness :
  ∃ s2 tr l,
    run_route (route (request idA idB (whole 300))) [] (setup_accounts keyA keyB [] ∅).2 =
      (Ok (res 200 (Success "Transfer successful!"
                      (JNum (whole (1000 - 300))) (JNum (whole (500 + 300))))),
       s2, tr)
    ∧ get_accounts [] s2 = mkReply 200 (Listing l)
    ∧ ∀ d, d ∈ l ↔ d = new_document keyA "UserA" (whole (1000 - 300))
                    ∨ d = new_document keyB "UserB" (whole (500 + 300)).
Proof.
  apply (setup_transfer_list hexIsValid hexCast keyA keyB (request idA idB (whole 300)) 300 ∅);
    by vm_compute.
Defined.

(** [total_stays_1500_after_setup] on two transfers. *)
Lemma total_after_setup_witness :
  let reqs := [(request idA idB (whole 300), []); (request idB idA (whole 2000), [])] in
  total (serve hexIsValid hexCast reqs (setup_accounts keyA keyB [] ∅).2).2 = whole 1500.
Proof.
  intros reqs.
  apply (total_stays_1500_after_setup hexIsValid hexCast keyA keyB reqs ∅).
  - by vm_compute.
  - repeat constructor; try (by vm_compute); by eexists.
  - vm_compute. repeat constructor; eexists; (split; [reflexivity|done]).
Defined.
